(** * RaveFlow: the beat clock, tap tempo and beat detector

    A shallow embedding of [src/audio/BeatClock.ts] (classes [BeatClock] and
    [TapTempo]) and [src/audio/BeatDetector.ts] (class [BeatDetector]).

    Numbers.  A JavaScript [number] that carries a time stamp, a tempo or
    an energy is read as an exact rational ([Q]); rounding error of the
    IEEE doubles is not modelled, and a division whose divisor is zero
    (which JavaScript answers with [Infinity] or [NaN]) is either written
    out where the code can reach it, or excluded by a hypothesis.  Fields
    that only ever receive integer values (a beat count, a rounded BPM) are
    integers ([Z]).

    Time.  Every call of [performance.now()] is an explicit argument of the
    method that makes it, in the order the calls are made. *)

From Stdlib Require Import QArith Qround ZArith List Bool Lia Lqa.
Import ListNotations.

Local Open Scope Q_scope.

(** ** JavaScript arithmetic on exact rationals *)

Module JS.

(** [a > b] and [a < b] on numbers, as booleans. *)
Definition ltb (x y : Q) : bool := negb (Qle_bool y x).
Definition gtb (x y : Q) : bool := ltb y x.

(** [Math.floor]. *)
Definition floor (x : Q) : Z := Qfloor x.

(** [Math.round]: the nearest integer, a tie going towards +infinity. *)
Definition round (x : Q) : Z := Qfloor (x + (1 # 2)).

(** Truncation towards zero, the quotient behind [%]. *)
Definition trunc (x : Q) : Z :=
  if Qle_bool 0 x then Qfloor x else Qceiling x.

(** [x % y] for a divisor other than zero: the remainder of the truncated
    division, so its sign is the sign of [x]. *)
Definition rem (x y : Q) : Q := x - y * inject_Z (trunc (x / y)).

(** [Math.max] and [Math.min] on numbers. *)
Definition max (x y : Q) : Q := if Qle_bool x y then y else x.
Definition min (x y : Q) : Q := if Qle_bool x y then x else y.

(** A rational stand-in for [Math.sqrt], exact to three decimals from
    below; it lets the onset detector run on concrete frames. *)
Definition sqrtMilli (x : Q) : Q := Z.sqrt (Qfloor (x * 1000000)) # 1000.

(** [xs.reduce((a, b) => a + b, 0)]. *)
Definition sum (xs : list Q) : Q := fold_left Qplus xs 0.

(** [xs[xs.length - 1]], when there is one. *)
Definition lastOf (xs : list Q) : option Q :=
  match rev xs with [] => None | x :: _ => Some x end.

(** [xs.push(x)] followed by [if (xs.length > cap) xs.shift()]. *)
Definition pushCapped (cap : nat) (x : Q) (xs : list Q) : list Q :=
  let ys := xs ++ [x] in
  if (cap <? length ys)%nat then tl ys else ys.

End JS.

(** ** The beat information handed to the scenes ([scenes/types.ts]) *)

Record BeatInfo : Type := mkBeatInfo {
  phase : Q;
  intensity : Q;
  isOnset : bool;
  bpm : Q
}.

(** ** class BeatClock *)

Module BeatClock.

Record t : Type := mk {
  bpm : Q;
  startTime : Q;
  lastBeatTime : Q;
  beatCount : Z;
  isRunning : bool
}.

(** [new BeatClock(bpm)]. *)
Definition create (b : Q) : t := mk b 0 0 0 false.

(** [start()]; [now] is the value of [performance.now()]. *)
Definition start (now : Q) (c : t) : t :=
  mk (bpm c) now now 0 true.

Definition stop (c : t) : t :=
  mk (bpm c) (startTime c) (lastBeatTime c) (beatCount c) false.

Definition getBPM (c : t) : Q := bpm c.

(** [getPhase()], private. *)
Definition getPhase (now : Q) (c : t) : Q :=
  if negb (isRunning c) then 0
  else
    let beatDuration := 60000 / bpm c in
    let elapsed := now - startTime c in
    JS.rem elapsed beatDuration / beatDuration.

(** [setBPM(bpm)].  The clock is read twice: [now1] inside [getPhase()],
    then [now2] for the new start time. *)
Definition setBPM (now1 now2 : Q) (b : Q) (c : t) : t :=
  if negb (Qeq_bool b (bpm c)) then
    let currentPhase := getPhase now1 c in
    let beatDuration := 60000 / b in
    mk b (now2 - currentPhase * beatDuration)
       (lastBeatTime c) (beatCount c) (isRunning c)
  else c.

(** The local [currentBeat] of [update()]. *)
Definition currentBeat (now : Q) (c : t) : Z :=
  JS.floor ((now - startTime c) / (60000 / bpm c)).

(** [update()]: the emitted record and the clock afterwards.  The phase
    is the exact remainder and the beat index the exact floor of the same
    quotient; on doubles the two are rounded apart, and at a clock reading
    a whole number of beats after the start the code can emit a phase just
    below 1 together with the new index. *)
Definition update (now : Q) (c : t) : BeatInfo * t :=
  if negb (isRunning c) then (mkBeatInfo 0 0 false (bpm c), c)
  else
    let beatDuration := 60000 / bpm c in
    let elapsed := now - startTime c in
    let phase := JS.rem elapsed beatDuration / beatDuration in
    let currentBeat := JS.floor (elapsed / beatDuration) in
    let isOnset := (beatCount c <? currentBeat)%Z in
    let c' :=
      if isOnset
      then mk (bpm c) (startTime c) now currentBeat (isRunning c)
      else c in
    let timeSinceLastBeat := now - lastBeatTime c' in
    let decayTime := beatDuration * (3 # 10) in
    let intensity := JS.max 0 (1 - timeSinceLastBeat / decayTime) in
    (mkBeatInfo phase intensity isOnset (bpm c), c').

(** A run of [update()] calls at the given clock readings: the records
    emitted, in order, and the clock at the end. *)
Fixpoint updates (times : list Q) (c : t) : list BeatInfo * t :=
  match times with
  | [] => ([], c)
  | now :: rest =>
      let '(info, c1) := update now c in
      let '(infos, c2) := updates rest c1 in
      (info :: infos, c2)
  end.

(** The stored beat count agrees with the beat index at the clock reading
    [now]: what [start()] sets up and [update()] keeps. *)
Definition synced (now : Q) (c : t) : Prop :=
  beatCount c = currentBeat now c.

End BeatClock.

(** ** class TapTempo *)

Module TapTempo.

Record t : Type := mk { taps : list Q }.

Definition maxTaps : nat := 8.
Definition maxInterval : Q := 2000.

Definition create : t := mk [].

(** The loop adding up [taps[i] - taps[i - 1]] for [i >= 1]. *)
Fixpoint totalInterval (xs : list Q) : Q :=
  match xs with
  | a :: ((b :: _) as rest) => (b - a) + totalInterval rest
  | _ => 0
  end.

(** The tail of [tap()]: [60000 / avgInterval], rounded and clamped.  A
    zero average makes the quotient [Infinity], which [Math.min] brings
    down to 200.  The quotient is exact here; on doubles a quotient that is
    exactly a half (taps at 0, 533, 1066, 1600: 112.5) can come out just
    below it and round down. *)
Definition toBPM (avgInterval : Q) : Z :=
  if Qeq_bool avgInterval 0 then 200%Z
  else Z.max 60 (Z.min 200 (JS.round (60000 / avgInterval))).

(** [tap()]: the result ([None] for [null]) and the helper afterwards. *)
Definition tap (now : Q) (s : t) : option Z * t :=
  let kept :=
    match JS.lastOf (taps s) with
    | Some l => if JS.gtb (now - l) maxInterval then [] else taps s
    | None => taps s
    end in
  let taps' := JS.pushCapped maxTaps now kept in
  if (length taps' <? 2)%nat then (None, mk taps')
  else
    let avgInterval :=
      totalInterval taps' / inject_Z (Z.of_nat (length taps' - 1)) in
    (Some (toBPM avgInterval), mk taps').

Definition reset (s : t) : t := mk [].

(** Taps at the given clock readings, one after the other. *)
Definition tapAll (times : list Q) (s : t) : t :=
  fold_left (fun acc now => snd (tap now acc)) times s.

End TapTempo.

(** ** class BeatDetector *)

Module BeatDetector.

Record t : Type := mk {
  sampleRate : Q;
  sensitivity : Q;
  smoothing : Q;
  energyHistory : list Q;
  lastEnergy : Q;
  threshold : Q;
  onsetTimes : list Q;
  estimatedBPM : Z;
  bpmLocked : bool;
  lockedBPM : Z;
  lastOnsetTime : Q
}.

Definition historySize : nat := 43.
Definition maxOnsets : nat := 32.
Definition minOnsetInterval : Q := 200.

(** [new BeatDetector(sampleRate)]. *)
Definition create (rate : Q) : t :=
  mk rate (5 # 10) (8 # 10) [] 0 0 [] 140 false 140 0.

(** Modelled from the spec: [clamp] of [utils/math], which is imported
    by the detector but is not among the sources; the spec gives the
    ranges the two setters keep their knobs in, [0, 1] and [0, 0.99]. *)
Definition clamp (v lo hi : Q) : Q := JS.max lo (JS.min hi v).

Definition setSensitivity (v : Q) (s : t) : t :=
  mk (sampleRate s) (clamp v 0 1) (smoothing s) (energyHistory s)
     (lastEnergy s) (threshold s) (onsetTimes s) (estimatedBPM s)
     (bpmLocked s) (lockedBPM s) (lastOnsetTime s).

Definition setSmoothing (v : Q) (s : t) : t :=
  mk (sampleRate s) (sensitivity s) (clamp v 0 (99 # 100)) (energyHistory s)
     (lastEnergy s) (threshold s) (onsetTimes s) (estimatedBPM s)
     (bpmLocked s) (lockedBPM s) (lastOnsetTime s).

(** *** Tempo estimation *)

(** The intervals between consecutive onsets that pass the filter
    [interval > 315 && interval < 500], in order. *)
Fixpoint intervalsOf (ts : list Q) : list Q :=
  match ts with
  | a :: ((b :: _) as rest) =>
      let interval := b - a in
      if JS.gtb interval 315 && JS.ltb interval 500
      then interval :: intervalsOf rest
      else intervalsOf rest
  | _ => []
  end.

Definition bucketSize : Z := 10.

(** [Math.round(interval / bucketSize) * bucketSize]. *)
Definition bucketOf (interval : Q) : Z :=
  (JS.round (interval / inject_Z bucketSize) * bucketSize)%Z.

(** [buckets.set(bucket, (buckets.get(bucket) || 0) + 1)] on a [Map]: an
    association list in insertion order; a key already present keeps its
    place. *)
Fixpoint bump (bucket : Z) (buckets : list (Z * Z)) : list (Z * Z) :=
  match buckets with
  | [] => [(bucket, 1%Z)]
  | (k, n) :: rest =>
      if (k =? bucket)%Z then (k, (n + 1)%Z) :: rest
      else (k, n) :: bump bucket rest
  end.

Definition histogram (intervals : list Q) : list (Z * Z) :=
  fold_left (fun buckets interval => bump (bucketOf interval) buckets)
            intervals [].

(** The scan for the most common bucket: the pair [(maxCount,
    bestInterval)], started at [(0, 428)]. *)
Definition mostCommon (buckets : list (Z * Z)) : Z * Z :=
  fold_left
    (fun (acc : Z * Z) (entry : Z * Z) =>
       let '(maxCount, bestInterval) := acc in
       let '(interval, count) := entry in
       if (maxCount <? count)%Z then (count, interval)
       else (maxCount, bestInterval))
    buckets (0%Z, 428%Z).

(** [estimateBPM()] up to [const bpm = Math.round(60000 / bestInterval)]:
    the candidate, or [None] where the method returns early. *)
Definition candidateBPM (ts : list Q) : option Z :=
  if (length ts <? 4)%nat then None
  else
    let intervals := intervalsOf ts in
    if (length intervals <? 2)%nat then None
    else
      let bestInterval := snd (mostCommon (histogram intervals)) in
      Some (JS.round (60000 / inject_Z bestInterval)).

(** [Math.round(this.estimatedBPM * 0.7 + bpm * 0.3)].  The sum is exact
    here; on doubles a sum that is exactly a half (estimate 121 with
    candidate 136: 125.5) can come out just below it and round down. *)
Definition smooth (estimate candidate : Z) : Z :=
  JS.round (inject_Z estimate * (7 # 10) + inject_Z candidate * (3 # 10)).

Definition withEstimate (e : Z) (s : t) : t :=
  mk (sampleRate s) (sensitivity s) (smoothing s) (energyHistory s)
     (lastEnergy s) (threshold s) (onsetTimes s) e
     (bpmLocked s) (lockedBPM s) (lastOnsetTime s).

(** The end of [estimateBPM()]:
    [if (bpm >= 120 && bpm <= 190) this.estimatedBPM = ...]. *)
Definition acceptCandidate (candidate : Z) (s : t) : t :=
  if (120 <=? candidate)%Z && (candidate <=? 190)%Z
  then withEstimate (smooth (estimatedBPM s) candidate) s
  else s.

(** [estimateBPM()], private. *)
Definition estimateBPM (s : t) : t :=
  match candidateBPM (onsetTimes s) with
  | None => s
  | Some candidate => acceptCandidate candidate s
  end.

(** [recordOnset(time)], private. *)
Definition recordOnset (time : Q) (s : t) : t :=
  let s1 :=
    mk (sampleRate s) (sensitivity s) (smoothing s) (energyHistory s)
       (lastEnergy s) (threshold s)
       (JS.pushCapped maxOnsets time (onsetTimes s))
       (estimatedBPM s) (bpmLocked s) (lockedBPM s) (lastOnsetTime s) in
  if negb (bpmLocked s1) then estimateBPM s1 else s1.

Definition recordOnsets (times : list Q) (s : t) : t :=
  fold_left (fun acc time => recordOnset time acc) times s.

Definition getEstimatedBPM (s : t) : Z :=
  if bpmLocked s then lockedBPM s else estimatedBPM s.

Definition lockBPM (s : t) : t :=
  mk (sampleRate s) (sensitivity s) (smoothing s) (energyHistory s)
     (lastEnergy s) (threshold s) (onsetTimes s) (estimatedBPM s)
     true (estimatedBPM s) (lastOnsetTime s).

Definition unlockBPM (s : t) : t :=
  mk (sampleRate s) (sensitivity s) (smoothing s) (energyHistory s)
     (lastEnergy s) (threshold s) (onsetTimes s) (estimatedBPM s)
     false (lockedBPM s) (lastOnsetTime s).

Definition isLocked (s : t) : bool := bpmLocked s.

Definition reset (s : t) : t :=
  mk (sampleRate s) (sensitivity s) (smoothing s) []
     0 (threshold s) [] 140 false (lockedBPM s) 0.

(** *** Onset detection *)

Section Onset.

(** [Math.sqrt] has no exact rational value; the detector is read over
    any function standing for it. *)
Variable sqrt : Q -> Q.

(** The two loops that add up the weighted squares. *)
Definition rawEnergy (frequencyData bassData : list Q) : Q :=
  let bassWeight := 7 # 10 in
  let fullWeight := 3 # 10 in
  let energy :=
    fold_left (fun e x => e + x * x * bassWeight) (firstn 20 bassData) 0 in
  fold_left (fun e x => e + x * x * fullWeight) frequencyData energy.

Definition lengthQ (xs : list Q) : Q := inject_Z (Z.of_nat (length xs)).

(** [detectOnset(frequencyData, bassData)]: the flag returned and the
    detector afterwards.  An empty [frequencyData] divides by a zero
    length, which JavaScript answers with [NaN] or [Infinity]; the energy
    values of that case are not modelled, the lengths and the tempo fields
    are. *)
Definition detectOnset (now : Q) (frequencyData bassData : list Q) (s : t)
  : bool * t :=
  let energy0 := sqrt (rawEnergy frequencyData bassData / lengthQ frequencyData) in
  let energy := lastEnergy s * smoothing s + energy0 * (1 - smoothing s) in
  let history := JS.pushCapped historySize energy (energyHistory s) in
  let s1 :=
    mk (sampleRate s) (sensitivity s) (smoothing s) history
       energy (threshold s) (onsetTimes s) (estimatedBPM s)
       (bpmLocked s) (lockedBPM s) (lastOnsetTime s) in
  if (length history <? 10)%nat then (false, s1)
  else
    let avgEnergy := JS.sum history / lengthQ history in
    let variance :=
      fold_left (fun a b => a + (b - avgEnergy) * (b - avgEnergy)) history 0
      / lengthQ history in
    let stdDev := sqrt variance in
    let sensitivityFactor := (15 # 10) - sensitivity s in
    let threshold' := avgEnergy + stdDev * sensitivityFactor in
    let isOnset :=
      JS.gtb energy threshold'
      && JS.gtb (now - lastOnsetTime s) minOnsetInterval in
    let s2 :=
      mk (sampleRate s) (sensitivity s) (smoothing s) history
         energy threshold' (onsetTimes s) (estimatedBPM s)
         (bpmLocked s) (lockedBPM s) (lastOnsetTime s) in
    if isOnset then
      let s3 :=
        mk (sampleRate s2) (sensitivity s2) (smoothing s2) (energyHistory s2)
           (lastEnergy s2) (threshold s2) (onsetTimes s2) (estimatedBPM s2)
           (bpmLocked s2) (lockedBPM s2) now in
      (true, recordOnset now s3)
    else (false, s2).

(** The public methods of a detector, as the commands of a run. *)
Inductive command : Type :=
| SetSensitivity (v : Q)
| SetSmoothing (v : Q)
| DetectOnset (now : Q) (frequencyData bassData : list Q)
| LockBPM
| UnlockBPM
| Reset.

Definition exec (cmd : command) (s : t) : t :=
  match cmd with
  | SetSensitivity v => setSensitivity v s
  | SetSmoothing v => setSmoothing v s
  | DetectOnset now f b => snd (detectOnset now f b s)
  | LockBPM => lockBPM s
  | UnlockBPM => unlockBPM s
  | Reset => reset s
  end.

Definition run (cmds : list command) (s : t) : t :=
  fold_left (fun acc cmd => exec cmd acc) cmds s.

End Onset.

(** *** Evenly spaced onsets, for the statements below *)

(** Consecutive onset times are all [interval] apart. *)
Fixpoint evenlySpaced (interval : Q) (times : list Q) : Prop :=
  match times with
  | a :: ((b :: _) as rest) => b - a == interval /\ evenlySpaced interval rest
  | _ => True
  end.

(** The [n] onset times [t0], [t0 + interval], [t0 + 2 * interval], ... *)
Fixpoint onsetsEvery (t0 interval : Q) (n : nat) : list Q :=
  match n with
  | O => []
  | S k => t0 :: onsetsEvery (t0 + interval) interval k
  end.

(** The number of re-estimations that find at least 4 stored onsets, when
    [r] onsets are recorded on top of a window of [m]. *)
Definition estimations (m r : nat) : nat := ((m + r) - 3) - (m - 3).

(** [n] smoothing updates in a row towards one candidate. *)
Fixpoint smoothTimes (candidate : Z) (n : nat) (estimate : Z) : Z :=
  match n with
  | O => estimate
  | S k => smoothTimes candidate k (smooth estimate candidate)
  end.

(** Where repeated smoothing towards [candidate] comes to rest: one short
    of the candidate on the side the estimate started from. *)
Definition settled (candidate estimate : Z) : Z :=
  if (estimate <? candidate)%Z then (candidate - 1)%Z
  else if (candidate <? estimate)%Z then (candidate + 1)%Z
  else candidate.

(** *** Histograms and silence, for the statements below *)

(** The counts of a histogram, added up. *)
Definition totalCount (buckets : list (Z * Z)) : Z :=
  fold_right (fun entry acc => (snd entry + acc)%Z) 0%Z buckets.

(** One step of the scan of [mostCommon]. *)
Definition scanStep (acc entry : Z * Z) : Z * Z :=
  let '(maxCount, bestInterval) := acc in
  let '(interval, count) := entry in
  if (maxCount <? count)%Z then (count, interval)
  else (maxCount, bestInterval).

(** A frame in which every bin is zero. *)
Definition silent (frame : list Q) : Prop := Forall (fun x => x == 0) frame.

(** A detector that has heard nothing but silence: the smoothed energy and
    every sample of the history are zero. *)
Definition quiet (s : t) : Prop :=
  lastEnergy s == 0 /\ Forall (fun e => e == 0) (energyHistory s).

(** *** The tempo range, for the statements below *)

(** The genre range of the estimator. *)
Definition inRange (z : Z) : Prop := (120 <= z <= 190)%Z.

(** What one method call may do to the two stored tempos: the live
    estimate is kept, put back to 140, or smoothed towards a candidate of
    the range; the locked value is kept or takes the live estimate. *)
Definition tempoStep (s s' : t) : Prop :=
  (estimatedBPM s' = estimatedBPM s \/
   estimatedBPM s' = 140%Z \/
   exists candidate, inRange candidate /\
     estimatedBPM s' = smooth (estimatedBPM s) candidate) /\
  (lockedBPM s' = lockedBPM s \/ lockedBPM s' = estimatedBPM s).

End BeatDetector.

(** ** Runs of the manual beat clock *)

Module ClockRun.

(** The public methods of a clock that change it or emit, each with the
    clock readings it makes. *)
Inductive command : Type :=
| Start (now : Q)
| Stop
| SetBPM (now1 now2 bpm : Q)
| Update (now : Q).

(** One call: what it emits and the clock afterwards. *)
Definition exec (cmd : command) (c : BeatClock.t) : list BeatInfo * BeatClock.t :=
  match cmd with
  | Start now => ([], BeatClock.start now c)
  | Stop => ([], BeatClock.stop c)
  | SetBPM now1 now2 b => ([], BeatClock.setBPM now1 now2 b c)
  | Update now => let '(info, c') := BeatClock.update now c in ([info], c')
  end.

Fixpoint run (cmds : list command) (c : BeatClock.t)
  : list BeatInfo * BeatClock.t :=
  match cmds with
  | [] => ([], c)
  | cmd :: rest =>
      let '(out1, c1) := exec cmd c in
      let '(out2, c2) := run rest c1 in
      (out1 ++ out2, c2)
  end.

(** The clock readings of a run never go back, starting from [last], and
    every tempo set is positive. *)
Fixpoint wellTimed (last : Q) (cmds : list command) : Prop :=
  match cmds with
  | [] => True
  | Start now :: rest => last <= now /\ wellTimed now rest
  | Stop :: rest => wellTimed last rest
  | SetBPM now1 now2 b :: rest =>
      last <= now1 /\ now1 <= now2 /\ 0 < b /\ wellTimed now2 rest
  | Update now :: rest => last <= now /\ wellTimed now rest
  end.

(** The clock readings [times] never go back, starting from [prev]. *)
Fixpoint ascending (prev : Q) (times : list Q) : Prop :=
  match times with
  | [] => True
  | now :: rest => prev <= now /\ ascending now rest
  end.

(** For each clock reading of a run, whether the beat index has grown since
    the reading before it. *)
Fixpoint crossings (prev : Q) (times : list Q) (c : BeatClock.t) : list bool :=
  match times with
  | [] => []
  | now :: rest =>
      (BeatClock.currentBeat prev c <? BeatClock.currentBeat now c)%Z
        :: crossings now rest c
  end.


(** The record of a stopped clock. *)
Definition neutral (b : Q) : BeatInfo := mkBeatInfo 0 0 false b.

(** While the clock runs, neither the start time nor the time of the last
    beat lies after the latest clock reading, and the tempo is positive. *)
Definition timely (last : Q) (c : BeatClock.t) : Prop :=
  0 < BeatClock.bpm c /\
  (BeatClock.isRunning c = true ->
   BeatClock.startTime c <= last /\ BeatClock.lastBeatTime c <= last).

(** The ranges [scenes/types.ts] gives for a record: phase in [0, 1),
    intensity in [0, 1]. *)
Definition inUnitRange (info : BeatInfo) : Prop :=
  0 <= phase info /\ phase info < 1 /\
  0 <= intensity info /\ intensity info <= 1.

End ClockRun.

(** ** The tempo of the application store and the tap button *)

Module Store.

(** [setBpm] of the store: [Math.max(120, Math.min(190, bpm))]. *)
Definition setBpm (bpm : Q) : Q := JS.max 120 (JS.min 190 bpm).

(** [handleTapTempo] of the settings overlay: [tap()], then [setBpm] when
    the result is truthy (neither [null] nor 0).  The stored tempo and the
    tap helper afterwards. *)
Definition handleTapTempo (now : Q) (bpm : Q) (tt : TapTempo.t)
  : Q * TapTempo.t :=
  let '(newBpm, tt') := TapTempo.tap now tt in
  match newBpm with
  | Some n => if (n =? 0)%Z then (bpm, tt') else (setBpm (inject_Z n), tt')
  | None => (bpm, tt')
  end.

(** [nextScene] and [prevScene]: the scene index steps round the scene
    count; [%] on integers is the truncated remainder. *)
Definition nextScene (currentSceneIndex sceneCount : Z) : Z :=
  Z.rem (currentSceneIndex + 1) sceneCount.

Definition prevScene (currentSceneIndex sceneCount : Z) : Z :=
  Z.rem (currentSceneIndex - 1 + sceneCount) sceneCount.

End Store.

(** * Properties *)

(** ** Rounding and remainders *)

Section Rounding.

Lemma floor_unique (x : Q) (z : Z) :
  inject_Z z <= x -> x < inject_Z (z + 1) -> Qfloor x = z.
Proof.
  intros Hlo Hhi.
  pose proof (Qfloor_le x) as Hf.
  pose proof (Qlt_floor x) as Hl.
  assert (H1 : (Qfloor x < z + 1)%Z).
  { rewrite Zlt_Qlt. eapply Qle_lt_trans; eassumption. }
  assert (H2 : (z < Qfloor x + 1)%Z).
  { rewrite Zlt_Qlt. eapply Qle_lt_trans; eassumption. }
  lia.
Qed.

Lemma floor_bounds (x : Q) (z : Z) :
  Qfloor x = z -> inject_Z z <= x /\ x < inject_Z (z + 1).
Proof.
  intros <-. split; [apply Qfloor_le | apply Qlt_floor].
Qed.

Lemma inject_Z_succ (z : Z) : inject_Z (z + 1) == inject_Z z + 1.
Proof. rewrite inject_Z_plus. reflexivity. Qed.

Lemma round_Z (z : Z) : JS.round (inject_Z z) = z.
Proof.
  unfold JS.round. apply floor_unique.
  - lra.
  - rewrite inject_Z_succ. lra.
Qed.

Lemma round_between (x : Q) (lo hi : Z) :
  inject_Z lo <= x -> x <= inject_Z hi -> (lo <= JS.round x <= hi)%Z.
Proof.
  intros Hlo Hhi. unfold JS.round.
  pose proof (Qfloor_le (x + (1 # 2))) as Hf.
  pose proof (Qlt_floor (x + (1 # 2))) as Hl.
  rewrite inject_Z_succ in Hl.
  split.
  - assert (H : (lo < Qfloor (x + (1 # 2)) + 1)%Z); [| lia].
    rewrite Zlt_Qlt, inject_Z_succ. lra.
  - assert (H : (Qfloor (x + (1 # 2)) < hi + 1)%Z); [| lia].
    rewrite Zlt_Qlt, inject_Z_succ. lra.
Qed.

Lemma ltb_lt (x y : Q) : JS.ltb x y = true <-> x < y.
Proof.
  unfold JS.ltb. rewrite negb_true_iff.
  destruct (Qle_bool y x) eqn:E.
  - apply Qle_bool_iff in E. split; [discriminate | lra].
  - split; [intros _ | reflexivity].
    apply Qnot_le_lt. intros H. apply Qle_bool_iff in H. congruence.
Qed.

Lemma gtb_gt (x y : Q) : JS.gtb x y = true <-> y < x.
Proof. apply ltb_lt. Qed.

End Rounding.

(** ** Tempo smoothing and the candidate gate *)

Section Smoothing.

Import BeatDetector.

Lemma smooth_fixed (e : Z) : smooth e e = e.
Proof.
  unfold smooth.
  assert (H : inject_Z e * (7 # 10) + inject_Z e * (3 # 10) == inject_Z e)
    by ring.
  unfold JS.round. apply floor_unique.
  - lra.
  - rewrite inject_Z_succ. lra.
Qed.

Lemma smooth_in_range (e c : Z) :
  (120 <= e <= 190)%Z -> (120 <= c <= 190)%Z ->
  (120 <= smooth e c <= 190)%Z.
Proof.
  intros [He1 He2] [Hc1 Hc2]. unfold smooth.
  rewrite Zle_Qle in He1, He2, Hc1, Hc2.
  apply round_between.
  - change (inject_Z 120) with 120 in *. lra.
  - change (inject_Z 190) with 190 in *. lra.
Qed.

Lemma withEstimate_same (s : t) : withEstimate (estimatedBPM s) s = s.
Proof. destruct s; reflexivity. Qed.

Lemma acceptCandidate_same (s : t) :
  acceptCandidate (estimatedBPM s) s = s.
Proof.
  unfold acceptCandidate.
  destruct (_ && _); [| reflexivity].
  rewrite smooth_fixed. apply withEstimate_same.
Qed.

(** C7.  Smoothing has no drift at equilibrium: when the candidate is the
    current estimate, one smoothing update gives the estimate back, and
    so does any number of re-estimations with that candidate. *)
Theorem smoothing_steady_state (s : t) (n : nat) :
  smooth (estimatedBPM s) (estimatedBPM s) = estimatedBPM s /\
  Nat.iter n (fun e => smooth e (estimatedBPM s)) (estimatedBPM s)
    = estimatedBPM s /\
  Nat.iter n (acceptCandidate (estimatedBPM s)) s = s.
Proof.
  split; [apply smooth_fixed |].
  split.
  - induction n as [| n IH]; simpl; [reflexivity |].
    rewrite IH. apply smooth_fixed.
  - induction n as [| n IH]; simpl; [reflexivity |].
    rewrite IH. apply acceptCandidate_same.
Qed.

(** C6.  The candidate of a re-estimation is smoothed into the estimate
    when it lies in [120, 190]; any other candidate leaves the detector
    as it was. *)
Theorem candidate_gate (candidate : Z) (s : t) :
  ((120 <= candidate <= 190)%Z ->
     acceptCandidate candidate s
       = withEstimate (smooth (estimatedBPM s) candidate) s) /\
  (~ (120 <= candidate <= 190)%Z -> acceptCandidate candidate s = s) /\
  (candidateBPM (onsetTimes s) = Some candidate ->
     estimateBPM s = acceptCandidate candidate s).
Proof.
  unfold acceptCandidate, estimateBPM.
  repeat split.
  - intros [H1 H2].
    apply Z.leb_le in H1. apply Z.leb_le in H2. rewrite H1, H2. reflexivity.
  - intros H.
    destruct (120 <=? candidate)%Z eqn:E1; [| reflexivity].
    destruct (candidate <=? 190)%Z eqn:E2; [| reflexivity].
    apply Z.leb_le in E1. apply Z.leb_le in E2. lia.
  - intros ->. reflexivity.
Qed.

Lemma candidate_gate_witness :
  acceptCandidate 100 (create 44100) = create 44100 /\
  estimatedBPM (acceptCandidate 150 (create 44100)) = 143%Z.
Proof.
  split.
  - apply (proj1 (proj2 (candidate_gate 100 (create 44100)))). lia.
  - rewrite (proj1 (candidate_gate 150 (create 44100))) by lia.
    reflexivity.
Defined.

End Smoothing.

(** ** Locking *)

Section Locking.

Import BeatDetector.

Lemma recordOnset_locked (time : Q) (s : t) :
  bpmLocked s = true ->
  recordOnset time s
    = mk (sampleRate s) (sensitivity s) (smoothing s) (energyHistory s)
         (lastEnergy s) (threshold s)
         (JS.pushCapped maxOnsets time (onsetTimes s))
         (estimatedBPM s) true (lockedBPM s) (lastOnsetTime s).
Proof.
  intros H. unfold recordOnset. simpl. rewrite H. reflexivity.
Qed.

Lemma recordOnsets_locked (times : list Q) :
  forall s : t,
    bpmLocked s = true ->
    let s' := recordOnsets times s in
    bpmLocked s' = true /\
    lockedBPM s' = lockedBPM s /\
    estimatedBPM s' = estimatedBPM s /\
    onsetTimes s'
      = fold_left (fun xs time => JS.pushCapped maxOnsets time xs)
                  times (onsetTimes s).
Proof.
  induction times as [| time rest IH]; intros s H; simpl.
  - auto.
  - specialize (IH (recordOnset time s)).
    rewrite (recordOnset_locked time s H) in *.
    apply IH. reflexivity.
Qed.

(** C3.  Locking is absorbing.  After [lockBPM()], whatever onsets are
    recorded, the detector stays locked, [getEstimatedBPM()] keeps
    returning the estimate that was current when the lock was taken, the
    live estimate is not recomputed, and the onset times are stored
    all the same (pushed, the oldest dropped beyond 32). *)
Theorem lock_absorbing (s : t) (times : list Q) :
  let s' := recordOnsets times (lockBPM s) in
  getEstimatedBPM s' = estimatedBPM s /\
  getEstimatedBPM s' = getEstimatedBPM (lockBPM s) /\
  estimatedBPM s' = estimatedBPM s /\
  bpmLocked s' = true /\
  onsetTimes s'
    = fold_left (fun xs time => JS.pushCapped maxOnsets time xs)
                times (onsetTimes s).
Proof.
  destruct (recordOnsets_locked times (lockBPM s) eq_refl)
    as (Hl & Hv & He & Ho).
  simpl. unfold getEstimatedBPM. rewrite Hl, Hv, He, Ho.
  simpl. auto.
Qed.

(** After [unlockBPM()] the live estimate is reported again. *)
Lemma unlock_reports_live (s : t) :
  getEstimatedBPM (unlockBPM s) = estimatedBPM s.
Proof. reflexivity. Qed.

End Locking.

(** ** The cold-start guard of the onset detector *)

Section ColdStart.

Import BeatDetector.

Variable sqrt : Q -> Q.

Lemma pushCapped_length (cap : nat) (x : Q) (xs : list Q) :
  (length xs < cap)%nat ->
  length (JS.pushCapped cap x xs) = S (length xs).
Proof.
  intros H. unfold JS.pushCapped.
  rewrite length_app. simpl.
  destruct (Nat.ltb_spec cap (length xs + 1)); [lia |].
  rewrite length_app. simpl. lia.
Qed.

Lemma pushCapped_length_any (cap : nat) (x y : Q) (xs : list Q) :
  length (JS.pushCapped cap x xs) = length (JS.pushCapped cap y xs).
Proof.
  unfold JS.pushCapped. rewrite !length_app. simpl.
  destruct (cap <? _)%nat; [| rewrite !length_app; reflexivity].
  destruct xs; simpl; [reflexivity |].
  rewrite !length_app. reflexivity.
Qed.

Lemma recordOnset_energyHistory (time : Q) (s : t) :
  energyHistory (recordOnset time s) = energyHistory s.
Proof.
  unfold recordOnset, estimateBPM, acceptCandidate. simpl.
  destruct (bpmLocked s); simpl; [reflexivity |].
  destruct (candidateBPM _); [| reflexivity].
  destruct (_ && _); reflexivity.
Qed.

Lemma detectOnset_energyHistory (now : Q) (f b : list Q) (s : t) :
  energyHistory (snd (detectOnset sqrt now f b s))
    = JS.pushCapped historySize
        (lastEnergy (snd (detectOnset sqrt now f b s))) (energyHistory s).
Proof.
  unfold detectOnset.
  destruct (length _ <? 10)%nat; [reflexivity |].
  destruct (_ && _); simpl; [| reflexivity].
  rewrite recordOnset_energyHistory. simpl.
  unfold recordOnset, estimateBPM, acceptCandidate. simpl.
  destruct (bpmLocked s); simpl; [reflexivity |].
  destruct (candidateBPM _); [| reflexivity].
  destruct (_ && _); reflexivity.
Qed.

(** C5, as the code has it.  The cold-start guard counts the sample of
    the current frame: [detectOnset] appends that sample to the energy
    history and then asks for 10 samples.  While the history, this sample
    included, holds fewer than 10, that is, while fewer than 9 samples were
    stored before the call, the call returns [false], whatever the two
    frames, the clock, the sensitivity and the smoothing are. *)
Theorem cold_start_guard (now : Q) (frequencyData bassData : list Q) (s : t) :
  let r := detectOnset sqrt now frequencyData bassData s in
  ((length (energyHistory (snd r)) < 10)%nat -> fst r = false) /\
  ((length (energyHistory s) < 9)%nat -> fst r = false).
Proof.
  cbv zeta. split.
  - intros H. rewrite detectOnset_energyHistory in H.
    rewrite pushCapped_length_any with (y := 0) in H.
    unfold detectOnset.
    rewrite pushCapped_length_any with (y := 0).
    destruct (Nat.ltb_spec
                (length (JS.pushCapped historySize 0 (energyHistory s))) 10);
      [reflexivity | lia].
  - intros H. unfold detectOnset.
    rewrite pushCapped_length by (unfold historySize; lia).
    destruct (Nat.ltb_spec (S (length (energyHistory s))) 10);
      [reflexivity | lia].
Qed.

(** The first nine frames after construction or [reset()] never signal an
    onset. *)
Lemma first_frames_silent (now : Q) (f b : list Q) (s : t) :
  (length (energyHistory s) < 9)%nat ->
  fst (detectOnset sqrt now f b s) = false /\
  length (energyHistory (snd (detectOnset sqrt now f b s)))
    = S (length (energyHistory s)).
Proof.
  intros H. unfold detectOnset.
  rewrite pushCapped_length by (unfold historySize; lia).
  destruct (Nat.ltb_spec (S (length (energyHistory s))) 10); [| lia].
  simpl. split; [reflexivity |].
  apply pushCapped_length. unfold historySize. lia.
Qed.

End ColdStart.

Lemma cold_start_guard_witness :
  let s8 := BeatDetector.mk 44100 (5 # 10) (8 # 10) [0; 0; 0; 0; 0; 0; 0; 0]
              0 0 [] 140 false 140 0 in
  fst (BeatDetector.detectOnset JS.sqrtMilli 1000 [1] [1] s8) = false /\
  fst (BeatDetector.detectOnset JS.sqrtMilli 1000 [1] [1] s8) = false.
Proof.
  intros s8. split.
  - apply (proj1 (cold_start_guard JS.sqrtMilli 1000 [1] [1] s8)).
    simpl. lia.
  - apply (proj2 (cold_start_guard JS.sqrtMilli 1000 [1] [1] s8)).
    simpl. lia.
Defined.

(** C5, as the spec has it, fails.  A detector with its settings as
    constructed and nine zero samples in the history, as nine silent frames
    leave it, holds fewer than 10 samples; a loud frame 1000 ms on is the
    tenth sample, passes the guard and signals an onset. *)
Lemma cold_start_fires_on_tenth_sample :
  let s9 := BeatDetector.mk 44100 (5 # 10) (8 # 10)
              [0; 0; 0; 0; 0; 0; 0; 0; 0] 0 0 [] 140 false 140 0 in
  (length (BeatDetector.energyHistory s9) < 10)%nat /\
  length (BeatDetector.energyHistory s9) = 9%nat /\
  fst (BeatDetector.detectOnset JS.sqrtMilli 1000 [1] [1] s9) = true.
Proof.
  cbv zeta. split; [| split]; vm_compute; reflexivity.
Qed.

(** ** The range of the reported tempo *)

Section TempoRange.

Import BeatDetector.

Variable sqrt : Q -> Q.

Lemma tempoStep_inRange (s s' : t) :
  tempoStep s s' ->
  inRange (estimatedBPM s) -> inRange (lockedBPM s) ->
  inRange (estimatedBPM s') /\ inRange (lockedBPM s').
Proof.
  intros [He Hl] H1 H2. split.
  - destruct He as [-> | [-> | (c & Hc & ->)]].
    + assumption.
    + unfold inRange. lia.
    + apply smooth_in_range; assumption.
  - destruct Hl as [-> | ->]; assumption.
Qed.

Lemma recordOnset_tempoStep (time : Q) (s : t) :
  tempoStep s (recordOnset time s).
Proof.
  unfold tempoStep, recordOnset, estimateBPM, acceptCandidate. simpl.
  destruct (bpmLocked s); simpl; [auto |].
  destruct (candidateBPM _) as [c |]; [| auto].
  destruct (120 <=? c)%Z eqn:E1; simpl; [| auto].
  destruct (c <=? 190)%Z eqn:E2; simpl; [| auto].
  apply Z.leb_le in E1. apply Z.leb_le in E2.
  split; [| auto].
  right. right. exists c. unfold inRange. auto.
Qed.

Lemma detectOnset_tempoStep (now : Q) (f b : list Q) (s : t) :
  tempoStep s (snd (detectOnset sqrt now f b s)).
Proof.
  unfold detectOnset.
  destruct (length _ <? 10)%nat; [unfold tempoStep; simpl; auto |].
  destruct (_ && _); [| unfold tempoStep; simpl; auto].
  cbv zeta. unfold snd.
  match goal with
  | |- tempoStep _ (recordOnset _ ?s3) =>
      change (estimatedBPM s) with (estimatedBPM s3);
      pose proof (recordOnset_tempoStep now s3) as H
  end.
  exact H.
Qed.

Lemma exec_tempoStep (cmd : command) (s : t) :
  tempoStep s (exec sqrt cmd s).
Proof.
  destruct cmd; simpl;
    try (unfold tempoStep; simpl; auto; fail).
  apply detectOnset_tempoStep.
Qed.

Lemma run_inRange (cmds : list command) :
  forall s : t,
    inRange (estimatedBPM s) -> inRange (lockedBPM s) ->
    inRange (estimatedBPM (run sqrt cmds s)) /\
    inRange (lockedBPM (run sqrt cmds s)).
Proof.
  induction cmds as [| cmd rest IH]; intros s H1 H2; simpl.
  - auto.
  - destruct (tempoStep_inRange s (exec sqrt cmd s)
                (exec_tempoStep cmd s) H1 H2) as [H3 H4].
    apply IH; assumption.
Qed.

(** C10.  The reported tempo stays in [120, 190].  Each method call
    leaves the live estimate alone, puts it back to 140, or replaces it
    by the smoothing of an accepted candidate of [120, 190]; the locked
    value is left alone or set to the live estimate.  So after any run of
    method calls on a new detector the live estimate, the locked value
    and the value [getEstimatedBPM()] returns all lie in [120, 190]. *)
Theorem reported_bpm_in_range (rate : Q) (cmds : list command) :
  let s := run sqrt cmds (create rate) in
  inRange (estimatedBPM s) /\
  inRange (lockedBPM s) /\
  inRange (getEstimatedBPM s) /\
  (forall cmd, tempoStep s (exec sqrt cmd s)).
Proof.
  cbv zeta.
  destruct (run_inRange cmds (create rate)) as [H1 H2];
    try (unfold inRange; simpl; lia).
  repeat split; try assumption; try apply H1; try apply H2.
  - unfold getEstimatedBPM. destruct (bpmLocked _); [apply H2 | apply H1].
  - unfold getEstimatedBPM. destruct (bpmLocked _); [apply H2 | apply H1].
  - apply exec_tempoStep.
  - apply exec_tempoStep.
Qed.

End TempoRange.

(** ** Tap tempo *)

Section Taps.

Import TapTempo.

Lemma tap_after_gap (now l : Q) (s : t) :
  JS.lastOf (taps s) = Some l ->
  maxInterval < now - l ->
  taps (snd (tap now s)) = [now] /\ fst (tap now s) = None.
Proof.
  intros Hl Hgap. unfold tap. rewrite Hl.
  apply gtb_gt in Hgap. rewrite Hgap. simpl. auto.
Qed.

(** C8.  A tap that comes more than 2000 ms after the most recent one
    discards the buffered taps before it is recorded: the buffer is then
    that tap alone (and the call returns no estimate).  For taps at 0, 500,
    3000 and 3500 the tap at 3000 starts a new sequence, and after the tap
    at 3500 the buffer holds the 2 taps 3000 and 3500. *)
Theorem tap_resets_on_gap :
  (forall (now l : Q) (s : t),
     JS.lastOf (taps s) = Some l ->
     2000 < now - l ->
     taps (snd (tap now s)) = [now]) /\
  taps (tapAll [0; 500] create) = [0; 500] /\
  taps (tapAll [0; 500; 3000] create) = [3000] /\
  taps (tapAll [0; 500; 3000; 3500] create) = [3000; 3500] /\
  length (taps (tapAll [0; 500; 3000; 3500] create)) = 2%nat.
Proof.
  split.
  - intros now l s Hl Hgap. apply (tap_after_gap now l s Hl Hgap).
  - repeat split; reflexivity.
Qed.

Lemma tap_resets_on_gap_witness :
  taps (snd (tap 3000 (tapAll [0; 500] create))) = [3000].
Proof.
  apply (proj1 tap_resets_on_gap 3000 500 (tapAll [0; 500] create)).
  - reflexivity.
  - reflexivity.
Defined.

End Taps.

(** ** The manual beat clock *)

Section Remainder.

Lemma trunc_comp (x y : Q) : x == y -> JS.trunc x = JS.trunc y.
Proof.
  intros H. unfold JS.trunc.
  rewrite (Qfloor_comp x y H), (Qceiling_comp x y H), (Qleb_comp 0 0 (Qeq_refl 0) x y H).
  reflexivity.
Qed.

Lemma rem_comp (x x' y y' : Q) :
  x == x' -> y == y' -> JS.rem x y == JS.rem x' y'.
Proof.
  intros Hx Hy. unfold JS.rem.
  rewrite (trunc_comp (x / y) (x' / y')) by (rewrite Hx, Hy; reflexivity).
  rewrite Hx, Hy. reflexivity.
Qed.

Lemma trunc_small (x : Q) : -1 < x -> x < 1 -> JS.trunc x = 0%Z.
Proof.
  intros Hlo Hhi. unfold JS.trunc.
  destruct (Qle_bool 0 x) eqn:E.
  - apply Qle_bool_iff in E.
    apply floor_unique; [change (0 <= x) | change (x < 1)]; lra.
  - assert (Hneg : x < 0).
    { apply Qnot_le_lt. intros H. apply Qle_bool_iff in H. congruence. }
    unfold Qceiling.
    rewrite (floor_unique (- x) 0);
      [reflexivity | change (0 <= - x); lra | change (- x < 1); lra].
Qed.

(** The fractional part left by truncation lies strictly between -1 and 1. *)
Lemma trunc_frac (x : Q) :
  -1 < x - inject_Z (JS.trunc x) /\ x - inject_Z (JS.trunc x) < 1.
Proof.
  unfold JS.trunc.
  destruct (Qle_bool 0 x).
  - pose proof (Qfloor_le x). pose proof (Qlt_floor x) as H1.
    rewrite inject_Z_succ in H1. lra.
  - pose proof (Qle_ceiling x). pose proof (Qceiling_lt x) as H1.
    assert (E : inject_Z (Qceiling x - 1) == inject_Z (Qceiling x) - 1)
      by (unfold Z.sub; rewrite inject_Z_plus; reflexivity).
    rewrite E in H1. lra.
Qed.

Lemma rem_over_divisor (x y : Q) :
  ~ y == 0 -> JS.rem x y / y == x / y - inject_Z (JS.trunc (x / y)).
Proof.
  intros Hy. unfold JS.rem. field. exact Hy.
Qed.

(** [(x % y) / y] lies strictly between -1 and 1. *)
Lemma rem_phase_bounds (x y : Q) :
  ~ y == 0 -> -1 < JS.rem x y / y /\ JS.rem x y / y < 1.
Proof.
  intros Hy. rewrite (rem_over_divisor x y Hy). apply trunc_frac.
Qed.

(** [((p * y) % y) / y] is [p] again for a [p] strictly between -1 and 1. *)
Lemma rem_of_fraction (p y : Q) :
  ~ y == 0 -> -1 < p -> p < 1 -> JS.rem (p * y) y / y == p.
Proof.
  intros Hy Hlo Hhi. rewrite (rem_over_divisor _ y Hy).
  assert (E : p * y / y == p) by (field; exact Hy).
  rewrite (trunc_comp _ _ E), (trunc_small p Hlo Hhi), E.
  simpl. ring.
Qed.

Lemma beat_duration_nonzero (b : Q) : ~ b == 0 -> ~ 60000 / b == 0.
Proof.
  intros Hb H. apply Hb.
  assert (E : b == 60000 / (60000 / b)) by (field; exact Hb).
  rewrite E, H. reflexivity.
Qed.

Lemma beat_duration_positive (b : Q) : 0 < b -> 0 < 60000 / b.
Proof.
  intros Hb. apply Qlt_shift_div_l; lra.
Qed.

End Remainder.

Section Clock.

Import BeatClock.

Lemma getPhase_running (now : Q) (c : t) :
  isRunning c = true ->
  getPhase now c
    = JS.rem (now - startTime c) (60000 / bpm c) / (60000 / bpm c).
Proof.
  intros H. unfold getPhase. rewrite H. reflexivity.
Qed.

Lemma getPhase_bounds (now : Q) (c : t) :
  isRunning c = true -> ~ bpm c == 0 ->
  -1 < getPhase now c /\ getPhase now c < 1.
Proof.
  intros Hrun Hbpm. rewrite (getPhase_running now c Hrun).
  apply rem_phase_bounds. apply beat_duration_nonzero. exact Hbpm.
Qed.

Lemma Qeq_bool_false (x y : Q) : ~ x == y -> Qeq_bool x y = false.
Proof.
  intros H. destruct (Qeq_bool x y) eqn:E; [| reflexivity].
  apply Qeq_bool_iff in E. contradiction.
Qed.

Lemma setBPM_changed (now1 now2 b : Q) (c : t) :
  ~ b == bpm c ->
  setBPM now1 now2 b c
    = mk b (now2 - getPhase now1 c * (60000 / b))
         (lastBeatTime c) (beatCount c) (isRunning c).
Proof.
  intros H. unfold setBPM. rewrite (Qeq_bool_false _ _ H). reflexivity.
Qed.

Lemma setBPM_same (now1 now2 b : Q) (c : t) :
  b == bpm c -> setBPM now1 now2 b c = c.
Proof.
  intros H. unfold setBPM.
  apply Qeq_bool_iff in H. rewrite H. reflexivity.
Qed.

(** The phase read at [now2] right after a tempo change is the phase that
    [setBPM] read at [now1] before it. *)
Lemma setBPM_phase_two_reads (now1 now2 b : Q) (c : t) :
  isRunning c = true -> ~ bpm c == 0 -> ~ b == 0 -> ~ b == bpm c ->
  getPhase now2 (setBPM now1 now2 b c) == getPhase now1 c.
Proof.
  intros Hrun Hbpm Hb Hne.
  rewrite (setBPM_changed now1 now2 b c Hne).
  destruct (getPhase_bounds now1 c Hrun Hbpm) as [Hlo Hhi].
  set (p := getPhase now1 c) in *.
  unfold getPhase at 1. simpl. rewrite Hrun. simpl.
  assert (Hbd : ~ 60000 / b == 0) by (apply beat_duration_nonzero; exact Hb).
  rewrite <- (rem_of_fraction p (60000 / b) Hbd Hlo Hhi) at 2.
  apply Qdiv_comp; [| reflexivity].
  apply rem_comp; [ring | reflexivity].
Qed.

(** C4.  A tempo change keeps the phase.  For a running clock and a new
    tempo, the phase read at the instant of the call is the same right
    after [setBPM] as right before it; when the tempo differs, the start
    time has become [now - currentPhase * newBeatDuration].  (Tempos are
    taken other than zero: a zero tempo has no beat duration.) *)
Theorem setBPM_preserves_phase (now newBpm : Q) (c : t) :
  isRunning c = true -> ~ bpm c == 0 -> ~ newBpm == 0 ->
  getPhase now (setBPM now now newBpm c) == getPhase now c /\
  (~ newBpm == bpm c ->
   startTime (setBPM now now newBpm c)
     = now - getPhase now c * (60000 / newBpm)).
Proof.
  intros Hrun Hbpm Hb. split.
  - destruct (Qeq_dec newBpm (bpm c)) as [E | E].
    + rewrite (setBPM_same now now newBpm c E). reflexivity.
    + apply setBPM_phase_two_reads; assumption.
  - intros E. rewrite (setBPM_changed now now newBpm c E). reflexivity.
Qed.

Lemma setBPM_preserves_phase_witness :
  getPhase 1100 (setBPM 1100 1100 150 (start 0 (create 120)))
    == getPhase 1100 (start 0 (create 120)).
Proof.
  apply (setBPM_preserves_phase 1100 150 (start 0 (create 120))).
  - reflexivity.
  - simpl. intros H. discriminate H.
  - intros H. discriminate H.
Defined.

End Clock.

(** ** Beat onsets and the stored beat count *)

Section Onsets.

Import BeatClock.

Lemma update_isOnset (now : Q) (c : t) :
  isRunning c = true ->
  isOnset (fst (update now c)) = (beatCount c <? currentBeat now c)%Z.
Proof.
  intros H. unfold update, currentBeat. rewrite H. reflexivity.
Qed.

Lemma update_no_onset (now : Q) (c : t) :
  isRunning c = true ->
  (currentBeat now c <= beatCount c)%Z ->
  isOnset (fst (update now c)) = false /\ snd (update now c) = c.
Proof.
  intros H Hle. apply Z.ltb_ge in Hle.
  unfold update, currentBeat in *. rewrite H. cbv zeta. cbn [negb].
  rewrite Hle. auto.
Qed.

Lemma updates_silent (times : list Q) (c : t) :
  isRunning c = true ->
  Forall (fun now => (currentBeat now c <= beatCount c)%Z) times ->
  Forall (fun info => isOnset info = false) (fst (updates times c)) /\
  snd (updates times c) = c.
Proof.
  intros Hrun Hall.
  induction Hall as [| now rest Hnow _ IH]; simpl.
  - auto.
  - destruct (update_no_onset now c Hrun Hnow) as [H1 H2].
    destruct (update now c) as [info c1]. simpl in H1, H2. subst c1.
    destruct (updates rest c) as [infos c2]. simpl in *.
    destruct IH as [IH1 IH2]. split; [constructor; assumption | exact IH2].
Qed.

(** Right after a tempo change the recomputed beat index is the integer
    part of the phase, so it is below one. *)
Lemma setBPM_restarts_index (now1 now2 b : Q) (c : t) :
  isRunning c = true -> ~ bpm c == 0 -> ~ b == 0 -> ~ b == bpm c ->
  (currentBeat now2 (setBPM now1 now2 b c) < 1)%Z.
Proof.
  intros Hrun Hbpm Hb Hne.
  rewrite (setBPM_changed now1 now2 b c Hne).
  destruct (getPhase_bounds now1 c Hrun Hbpm) as [_ Hhi].
  set (p := getPhase now1 c) in *.
  unfold currentBeat, JS.floor. cbn [startTime bpm].
  assert (E : (now2 - (now2 - p * (60000 / b))) / (60000 / b) == p).
  { field. exact Hb. }
  rewrite (Qfloor_comp _ _ E).
  rewrite Zlt_Qlt. pose proof (Qfloor_le p). change (inject_Z 1) with 1. lra.
Qed.

(** Until [n] beat durations after the change have gone by, the recomputed
    index has not passed [n]. *)
Lemma setBPM_index_bound (now1 now2 b now : Q) (n : Z) (c : t) :
  isRunning c = true -> ~ bpm c == 0 -> 0 < b -> ~ b == bpm c ->
  now < now2 + inject_Z n * (60000 / b) ->
  (currentBeat now (setBPM now1 now2 b c) <= n)%Z.
Proof.
  intros Hrun Hbpm Hb Hne Hnow.
  rewrite (setBPM_changed now1 now2 b c Hne).
  destruct (getPhase_bounds now1 c Hrun Hbpm) as [_ Hhi].
  set (p := getPhase now1 c) in *.
  unfold currentBeat, JS.floor. cbn [startTime bpm].
  pose proof (beat_duration_positive b Hb) as Hbd.
  set (bd := 60000 / b) in *.
  assert (Hp : p * bd < 1 * bd) by (apply Qmult_lt_r; assumption).
  set (pb := p * bd) in *.
  assert (Hx : (now - (now2 - pb)) / bd < inject_Z n + 1).
  { apply Qlt_shift_div_r; [exact Hbd |].
    set (nb := inject_Z n * bd) in *.
    assert (E : (inject_Z n + 1) * bd == nb + 1 * bd) by (unfold nb; ring).
    rewrite E. lra. }
  pose proof (Qfloor_le ((now - (now2 - pb)) / bd)) as Hf.
  assert (H : (Qfloor ((now - (now2 - pb)) / bd) < n + 1)%Z); [| lia].
  rewrite Zlt_Qlt, inject_Z_succ. lra.
Qed.

(** C9.  A tempo change while running leaves the beat count stale.  After
    [setBPM(b)] with a new tempo on a running clock whose stored beat count
    is [N >= 1], the recomputed beat index is below one while the stored
    count is still [N]; an [update()] signals an onset exactly when the
    recomputed index has passed [N] again; every run of [update()] calls
    whose index has not passed [N] emits no onset and leaves the clock as it
    is; and that is the case of every call made before [N] new beat
    durations have gone by. *)
Theorem setBPM_suppresses_onsets (now1 now2 b : Q) (c : t) :
  isRunning c = true -> ~ bpm c == 0 -> 0 < b -> ~ b == bpm c ->
  (1 <= beatCount c)%Z ->
  let c' := setBPM now1 now2 b c in
  (currentBeat now2 c' < 1)%Z /\
  beatCount c' = beatCount c /\
  (forall now,
     isOnset (fst (update now c')) = true
     <-> (beatCount c < currentBeat now c')%Z) /\
  (forall times,
     Forall (fun now => (currentBeat now c' <= beatCount c)%Z) times ->
     Forall (fun info => isOnset info = false) (fst (updates times c')) /\
     snd (updates times c') = c') /\
  (forall times,
     Forall (fun now => now < now2 + inject_Z (beatCount c) * (60000 / b))
            times ->
     Forall (fun info => isOnset info = false) (fst (updates times c'))).
Proof.
  intros Hrun Hbpm Hb Hne HN c'.
  assert (Hb0 : ~ b == 0) by (intros E; rewrite E in Hb; lra).
  assert (Hrun' : isRunning c' = true).
  { unfold c'. rewrite (setBPM_changed now1 now2 b c Hne). exact Hrun. }
  assert (Hcount : beatCount c' = beatCount c).
  { unfold c'. rewrite (setBPM_changed now1 now2 b c Hne). reflexivity. }
  split; [apply setBPM_restarts_index; assumption |].
  split; [exact Hcount |].
  split; [| split].
  - intros now. rewrite (update_isOnset now c' Hrun'), Hcount.
    apply Z.ltb_lt.
  - intros times Hall. apply updates_silent; [exact Hrun' |].
    rewrite Hcount. exact Hall.
  - intros times Hall. apply updates_silent; [exact Hrun' |].
    rewrite Hcount. eapply Forall_impl; [| exact Hall].
    intros now Hnow. simpl in Hnow.
    apply setBPM_index_bound; assumption.
Qed.

Lemma setBPM_suppresses_onsets_witness :
  let c := snd (update 1100 (start 0 (create 120))) in
  let c' := setBPM 1100 1100 150 c in
  (currentBeat 1100 c' < 1)%Z /\
  beatCount c' = 2%Z /\
  Forall (fun info => isOnset info = false)
         (fst (updates [1200; 1500; 1800] c')).
Proof.
  intros c c'.
  assert (Hrun : isRunning c = true) by reflexivity.
  assert (Hbpm : ~ bpm c == 0) by (intros H; discriminate H).
  assert (Hb : 0 < 150) by reflexivity.
  assert (Hne : ~ 150 == bpm c) by (intros H; discriminate H).
  assert (HN : (1 <= beatCount c)%Z) by (vm_compute; discriminate).
  destruct (setBPM_suppresses_onsets 1100 1100 150 c Hrun Hbpm Hb Hne HN)
    as (H1 & H2 & _ & _ & H5).
  split; [exact H1 |]. split; [exact H2 |].
  apply H5.
  repeat (constructor; [vm_compute; reflexivity |]). constructor.
Defined.

End Onsets.

(** ** Onsets and phase wraps *)

Section PhaseWraps.

Import BeatClock.

Lemma start_synced (now : Q) (c : t) : synced now (start now c).
Proof.
  unfold synced, currentBeat, JS.floor. cbn [start startTime bpm beatCount].
  assert (E : (now - now) / (60000 / bpm c) == 0) by (unfold Qdiv; ring).
  rewrite (Qfloor_comp _ _ E). reflexivity.
Qed.

Lemma currentBeat_monotone (t1 t2 : Q) (c : t) :
  0 < bpm c -> t1 <= t2 -> (currentBeat t1 c <= currentBeat t2 c)%Z.
Proof.
  intros Hbpm Hle. unfold currentBeat, JS.floor.
  apply Qfloor_resp_le.
  pose proof (beat_duration_positive (bpm c) Hbpm) as Hbd.
  unfold Qdiv at 1 3.
  apply Qmult_le_compat_r; [lra |].
  apply Qlt_le_weak. apply Qinv_lt_0_compat. exact Hbd.
Qed.

(** With no tempo change in between, [update()] signals an onset exactly
    when the beat index has grown since the previous clock reading, and the
    stored count follows the index. *)
Lemma update_onset_iff_wrapped (prev now : Q) (c : t) :
  isRunning c = true -> 0 < bpm c -> prev <= now -> synced prev c ->
  (isOnset (fst (update now c)) = true
   <-> (currentBeat prev c < currentBeat now c)%Z) /\
  synced now (snd (update now c)).
Proof.
  intros Hrun Hbpm Hle Hs. unfold synced in *.
  pose proof (currentBeat_monotone prev now c Hbpm Hle) as Hmono.
  split.
  - rewrite (update_isOnset now c Hrun), Hs. apply Z.ltb_lt.
  - unfold update. rewrite Hrun. cbv zeta. cbn [negb].
    fold (currentBeat now c).
    destruct (Z.ltb_spec (beatCount c) (currentBeat now c)) as [Hlt | Hge].
    + reflexivity.
    + cbn [snd]. lia.
Qed.

(** C1.  The onset is missed after a tempo change.  A clock at 120 BPM is
    started at 0 and updated at 1100: beat 2 is signalled and stored, the
    phase is 1/5.  [setBPM(150)] at 1100 keeps the phase 1/5 and restarts
    the beat index at 0.  At 1500, one new beat duration later, the index
    is 1 and the phase is 1/5 again, so the phase has gone through 0 since
    the previous emission, yet [update()] reports no onset: the index 1 is
    compared with the stale count 2. *)
Theorem onset_missed_after_setBPM :
  let c0 := start 0 (create 120) in
  let r1 := update 1100 c0 in
  let c2 := setBPM 1100 1100 150 (snd r1) in
  let r3 := update 1500 c2 in
  isOnset (fst r1) = true /\
  beatCount (snd r1) = 2%Z /\
  phase (fst r1) == 1 # 5 /\
  getPhase 1100 c2 == 1 # 5 /\
  currentBeat 1100 c2 = 0%Z /\
  currentBeat 1500 c2 = 1%Z /\
  phase (fst r3) == 1 # 5 /\
  beatCount c2 = 2%Z /\
  isOnset (fst r3) = false.
Proof.
  cbv zeta. repeat split; vm_compute; reflexivity.
Qed.

End PhaseWraps.

(** ** The tempo estimate on evenly spaced onsets *)

Section Histogram.

Import BeatDetector.

Lemma round_at_least (x : Q) (lo : Z) :
  inject_Z lo - (1 # 2) <= x -> (lo <= JS.round x)%Z.
Proof.
  intros H. unfold JS.round.
  pose proof (Qlt_floor (x + (1 # 2))) as Hl. rewrite inject_Z_succ in Hl.
  assert (G : (lo < Qfloor (x + (1 # 2)) + 1)%Z); [| lia].
  rewrite Zlt_Qlt, inject_Z_succ. lra.
Qed.

Lemma round_at_most (x : Q) (hi : Z) :
  x < inject_Z hi + (1 # 2) -> (JS.round x <= hi)%Z.
Proof.
  intros H. unfold JS.round.
  pose proof (Qfloor_le (x + (1 # 2))) as Hf.
  assert (G : (Qfloor (x + (1 # 2)) < hi + 1)%Z); [| lia].
  rewrite Zlt_Qlt, inject_Z_succ. lra.
Qed.

Lemma bucketOf_comp (x y : Q) : x == y -> bucketOf x = bucketOf y.
Proof.
  intros H. unfold bucketOf, JS.round.
  rewrite (Qfloor_comp (x / inject_Z bucketSize + (1 # 2))
                       (y / inject_Z bucketSize + (1 # 2)));
    [reflexivity | rewrite H; reflexivity].
Qed.

Lemma bucketOf_range (interval : Q) :
  315 < interval -> interval < 500 ->
  (320 <= bucketOf interval <= 500)%Z.
Proof.
  intros Hlo Hhi. unfold bucketOf, bucketSize.
  change (inject_Z 10) with 10.
  assert (E : interval / 10 == interval * (1 # 10)) by (field; lra).
  assert (H1 : (32 <= JS.round (interval / 10))%Z).
  { apply round_at_least. rewrite E. change (inject_Z 32) with 32. lra. }
  assert (H2 : (JS.round (interval / 10) <= 50)%Z).
  { apply round_at_most. rewrite E. change (inject_Z 50) with 50. lra. }
  lia.
Qed.

Lemma candidate_in_range (interval : Q) :
  315 < interval -> interval < 500 ->
  inRange (JS.round (60000 / inject_Z (bucketOf interval))).
Proof.
  intros Hlo Hhi.
  destruct (bucketOf_range interval Hlo Hhi) as [H1 H2].
  rewrite Zle_Qle in H1, H2.
  change (inject_Z 320) with 320 in H1. change (inject_Z 500) with 500 in H2.
  set (B := inject_Z (bucketOf interval)) in *.
  assert (HB : 0 < B) by lra.
  apply round_between.
  - change (inject_Z 120) with 120. apply Qle_shift_div_l; [exact HB | lra].
  - change (inject_Z 190) with 190. apply Qle_shift_div_r; [exact HB | lra].
Qed.

Lemma intervalsOf_even (interval : Q) (times : list Q) :
  315 < interval -> interval < 500 ->
  evenlySpaced interval times ->
  Forall (fun x => x == interval) (intervalsOf times) /\
  length (intervalsOf times) = (length times - 1)%nat.
Proof.
  intros Hlo Hhi.
  induction times as [| a rest IH]; intros Hev.
  - simpl. auto.
  - destruct rest as [| b rest'].
    + simpl. auto.
    + destruct Hev as [Hd Hev].
      destruct (IH Hev) as [IH1 IH2].
      change (intervalsOf (a :: b :: rest'))
        with (if JS.gtb (b - a) 315 && JS.ltb (b - a) 500
              then (b - a) :: intervalsOf (b :: rest')
              else intervalsOf (b :: rest')).
      assert (G1 : JS.gtb (b - a) 315 = true) by (apply gtb_gt; lra).
      assert (G2 : JS.ltb (b - a) 500 = true) by (apply ltb_lt; lra).
      rewrite G1, G2. cbn [andb]. split.
      * constructor; assumption.
      * cbn [length] in *. lia.
Qed.

Lemma fold_bump_const (k : Z) (xs : list Q) :
  Forall (fun x => bucketOf x = k) xs ->
  forall n : Z,
    fold_left (fun buckets x => bump (bucketOf x) buckets) xs [(k, n)]
      = [(k, (n + Z.of_nat (length xs))%Z)].
Proof.
  induction 1 as [| x rest Hx _ IH]; intros n.
  - simpl. rewrite Z.add_0_r. reflexivity.
  - cbn [fold_left length]. rewrite Hx. cbn [bump].
    rewrite Z.eqb_refl, IH. f_equal. f_equal. lia.
Qed.

Lemma histogram_const (k : Z) (xs : list Q) :
  Forall (fun x => bucketOf x = k) xs -> xs <> [] ->
  histogram xs = [(k, Z.of_nat (length xs))].
Proof.
  intros Hall Hne. unfold histogram.
  destruct Hall as [| x rest Hx Hrest]; [contradiction |].
  cbn [fold_left length]. rewrite Hx. cbn [bump].
  rewrite (fold_bump_const k rest Hrest). f_equal. f_equal. lia.
Qed.

Lemma mostCommon_single (k n : Z) :
  (0 < n)%Z -> mostCommon [(k, n)] = (n, k).
Proof.
  intros H. unfold mostCommon. cbn [fold_left].
  apply Z.ltb_lt in H. rewrite H. reflexivity.
Qed.

Lemma candidateBPM_short (times : list Q) :
  (length times < 4)%nat -> candidateBPM times = None.
Proof.
  intros H. unfold candidateBPM.
  apply Nat.ltb_lt in H. rewrite H. reflexivity.
Qed.

Lemma candidateBPM_even (interval : Q) (times : list Q) :
  315 < interval -> interval < 500 ->
  evenlySpaced interval times -> (4 <= length times)%nat ->
  candidateBPM times
    = Some (JS.round (60000 / inject_Z (bucketOf interval))).
Proof.
  intros Hlo Hhi Hev Hlen.
  destruct (intervalsOf_even interval times Hlo Hhi Hev) as [Hall Hn].
  unfold candidateBPM.
  apply Nat.ltb_ge in Hlen. rewrite Hlen. apply Nat.ltb_ge in Hlen.
  destruct (Nat.ltb_spec (length (intervalsOf times)) 2) as [Hs | _]; [lia |].
  rewrite (histogram_const (bucketOf interval) (intervalsOf times)).
  - rewrite mostCommon_single by lia. reflexivity.
  - eapply Forall_impl; [| exact Hall].
    intros x Hx. apply bucketOf_comp. exact Hx.
  - intros E. rewrite E in Hn. simpl in Hn. lia.
Qed.

End Histogram.

Section Convergence.

Import BeatDetector.

Ltac smooth_bounds e c :=
  unfold smooth, JS.round;
  set (x := inject_Z e * (7 # 10) + inject_Z c * (3 # 10) + (1 # 2));
  pose proof (Qfloor_le x) as Hfloor_lo;
  pose proof (Qlt_floor x) as Hfloor_hi;
  rewrite inject_Z_succ in Hfloor_hi;
  unfold x in *; clear x.

Lemma smooth_below (c e : Z) :
  (e < c)%Z ->
  (e <= smooth e c <= c - 1)%Z /\
  ((e <= c - 2)%Z -> (e + 1 <= smooth e c)%Z).
Proof.
  intros H.
  assert (HQ : inject_Z e + 1 <= inject_Z c).
  { rewrite <- inject_Z_succ, <- Zle_Qle. lia. }
  smooth_bounds e c.
  repeat split.
  - apply Z.lt_succ_r. unfold Z.succ. rewrite Zlt_Qlt, inject_Z_succ. lra.
  - apply Z.lt_le_pred. rewrite Zlt_Qlt. lra.
  - intros H2.
    assert (HQ2 : inject_Z e + 2 <= inject_Z c).
    { change 2 with (inject_Z 2). rewrite <- inject_Z_plus, <- Zle_Qle. lia. }
    apply Z.lt_succ_r. unfold Z.succ.
    rewrite Zlt_Qlt, !inject_Z_succ. lra.
Qed.

Lemma smooth_above (c e : Z) :
  (c < e)%Z ->
  (c + 1 <= smooth e c <= e)%Z /\
  ((c + 2 <= e)%Z -> (smooth e c <= e - 1)%Z).
Proof.
  intros H.
  assert (HQ : inject_Z c + 1 <= inject_Z e).
  { rewrite <- inject_Z_succ, <- Zle_Qle. lia. }
  smooth_bounds e c.
  repeat split.
  - apply Z.lt_succ_r. unfold Z.succ.
    rewrite Zlt_Qlt, !inject_Z_succ. lra.
  - apply Z.lt_succ_r. unfold Z.succ. rewrite Zlt_Qlt, inject_Z_succ. lra.
  - intros H2.
    assert (HQ2 : inject_Z c + 2 <= inject_Z e).
    { change 2 with (inject_Z 2). rewrite <- inject_Z_plus, <- Zle_Qle. lia. }
    apply Z.lt_le_pred. rewrite Zlt_Qlt. lra.
Qed.

(** Repeated smoothing towards a candidate comes to rest one short of it,
    after at most [|candidate - estimate| - 1] updates. *)
Lemma smoothTimes_settles (c : Z) (n : nat) :
  forall e : Z,
    (Z.abs (c - e) - 1 <= Z.of_nat n)%Z ->
    smoothTimes c n e = settled c e.
Proof.
  induction n as [| k IH]; intros e Hn.
  - cbn [smoothTimes]. unfold settled.
    destruct (Z.ltb_spec e c); [lia |].
    destruct (Z.ltb_spec c e); lia.
  - cbn [smoothTimes].
    destruct (Z.lt_trichotomy e c) as [Hlt | [Heq | Hgt]].
    + destruct (smooth_below c e Hlt) as [[H1 H2] H3].
      rewrite IH.
      * unfold settled.
        destruct (Z.ltb_spec (smooth e c) c); [| lia].
        destruct (Z.ltb_spec e c); [reflexivity | lia].
      * destruct (Z.le_gt_cases e (c - 2)) as [Hfar | Hnear]; [| lia].
        specialize (H3 Hfar). lia.
    + subst e. rewrite smooth_fixed. apply IH. lia.
    + destruct (smooth_above c e Hgt) as [[H1 H2] H3].
      rewrite IH.
      * unfold settled.
        destruct (Z.ltb_spec (smooth e c) c); [lia |].
        destruct (Z.ltb_spec c (smooth e c)); [| lia].
        destruct (Z.ltb_spec e c); [lia |].
        destruct (Z.ltb_spec c e); [reflexivity | lia].
      * destruct (Z.le_gt_cases (c + 2) e) as [Hfar | Hnear]; [| lia].
        specialize (H3 Hfar). lia.
Qed.

Lemma settled_near (c e : Z) : (Z.abs (settled c e - c) <= 1)%Z.
Proof.
  unfold settled.
  destruct (e <? c)%Z; [lia |]. destruct (c <? e)%Z; lia.
Qed.

End Convergence.

Section EvenOnsets.

Import BeatDetector.

Lemma evenlySpaced_tl (interval : Q) (times : list Q) :
  evenlySpaced interval times -> evenlySpaced interval (tl times).
Proof.
  destruct times as [| a [| b rest]]; simpl; tauto.
Qed.

Lemma evenlySpaced_prefix (interval : Q) (xs : list Q) :
  forall ys, evenlySpaced interval (xs ++ ys) -> evenlySpaced interval xs.
Proof.
  induction xs as [| a xs IH]; intros ys H.
  - exact I.
  - destruct xs as [| b xs'].
    + exact I.
    + destruct H as [Hd H]. split; [exact Hd |].
      apply (IH ys). exact H.
Qed.

Lemma onsetsEvery_length (interval : Q) (n : nat) :
  forall t0, length (onsetsEvery t0 interval n) = n.
Proof.
  induction n as [| k IH]; intros t0; simpl; [reflexivity |].
  rewrite IH. reflexivity.
Qed.

Lemma onsetsEvery_even (interval : Q) (n : nat) :
  forall t0, evenlySpaced interval (onsetsEvery t0 interval n).
Proof.
  induction n as [| k IH]; intros t0.
  - exact I.
  - destruct k as [| k'].
    + exact I.
    + change (onsetsEvery t0 interval (S (S k')))
        with (t0 :: onsetsEvery (t0 + interval) interval (S k')).
      specialize (IH (t0 + interval)).
      change (onsetsEvery (t0 + interval) interval (S k'))
        with ((t0 + interval)
                :: onsetsEvery (t0 + interval + interval) interval k') in *.
      split; [ring | exact IH].
Qed.

(** The onset window after one more onset: still evenly spaced together
    with the onsets to come, and one longer up to the cap. *)
Lemma pushCapped_even (interval time : Q) (window rest : list Q) :
  (length window <= maxOnsets)%nat ->
  evenlySpaced interval (window ++ time :: rest) ->
  let window' := JS.pushCapped maxOnsets time window in
  evenlySpaced interval (window' ++ rest) /\
  length window' = Nat.min (S (length window)) maxOnsets.
Proof.
  intros Hlen Hev. cbv zeta. unfold JS.pushCapped.
  assert (Happ : (window ++ [time]) ++ rest = window ++ time :: rest)
    by (rewrite <- app_assoc; reflexivity).
  assert (Hl : length (window ++ [time]) = S (length window))
    by (rewrite length_app; simpl; lia).
  rewrite Hl.
  destruct (Nat.ltb_spec maxOnsets (S (length window))) as [Hfull | Hroom].
  - destruct window as [| a window0]; [unfold maxOnsets in Hfull; simpl in Hfull; lia |].
    cbn [app tl]. split.
    + rewrite <- Happ in Hev. cbn [app] in Hev.
      apply (evenlySpaced_tl interval _ Hev).
    + rewrite length_app. cbn [length] in *. lia.
  - rewrite Happ, Hl. split; [exact Hev | lia].
Qed.

Lemma recordOnset_unlocked (time : Q) (s : t) :
  bpmLocked s = false ->
  let window := JS.pushCapped maxOnsets time (onsetTimes s) in
  onsetTimes (recordOnset time s) = window /\
  bpmLocked (recordOnset time s) = false /\
  estimatedBPM (recordOnset time s)
    = match candidateBPM window with
      | None => estimatedBPM s
      | Some c =>
          if (120 <=? c)%Z && (c <=? 190)%Z
          then smooth (estimatedBPM s) c
          else estimatedBPM s
      end.
Proof.
  intros H. cbv zeta.
  unfold recordOnset, estimateBPM, acceptCandidate.
  cbn [bpmLocked onsetTimes estimatedBPM]. rewrite H. cbn [negb].
  destruct (candidateBPM _) as [c |]; [| cbn; auto].
  destruct (_ && _); cbn; auto.
Qed.

(** The estimate after a run of evenly spaced onsets: one smoothing update
    towards the candidate of the interval's bucket for every onset that
    finds at least 4 in the window. *)
Lemma recordOnsets_even (interval : Q) (rest : list Q) :
  315 < interval -> interval < 500 ->
  forall s : t,
    bpmLocked s = false ->
    (length (onsetTimes s) <= maxOnsets)%nat ->
    evenlySpaced interval (onsetTimes s ++ rest) ->
    estimatedBPM (recordOnsets rest s)
      = smoothTimes (JS.round (60000 / inject_Z (bucketOf interval)))
          (estimations (length (onsetTimes s)) (length rest))
          (estimatedBPM s).
Proof.
  intros Hlo Hhi.
  induction rest as [| time rest IH]; intros s Hun Hlen Hev.
  - unfold estimations. cbn [recordOnsets fold_left length].
    replace (length (onsetTimes s) + 0 - 3 - (length (onsetTimes s) - 3))%nat
      with 0%nat by lia.
    reflexivity.
  - change (recordOnsets (time :: rest) s)
      with (recordOnsets rest (recordOnset time s)).
    destruct (recordOnset_unlocked time s Hun) as (Hw & Hun' & He).
    destruct (pushCapped_even interval time (onsetTimes s) rest Hlen Hev)
      as [Hev' Hlen'].
    set (window := JS.pushCapped maxOnsets time (onsetTimes s)) in *.
    rewrite IH; [| exact Hun' | rewrite Hw, Hlen'; lia | rewrite Hw; exact Hev'].
    rewrite Hw, Hlen', He.
    unfold maxOnsets in *. cbn [length].
    destruct (Nat.lt_ge_cases (length window) 4) as [Hshort | Hlong].
    + rewrite (candidateBPM_short window Hshort).
      f_equal. unfold estimations. lia.
    + rewrite (candidateBPM_even interval window Hlo Hhi
                 (evenlySpaced_prefix interval window rest Hev') Hlong).
      pose proof (candidate_in_range interval Hlo Hhi) as [Hc1 Hc2].
      apply Z.leb_le in Hc1. apply Z.leb_le in Hc2. rewrite Hc1, Hc2.
      cbn [andb].
      replace (estimations (length (onsetTimes s)) (S (length rest)))
        with (S (estimations
                   (Nat.min (S (length (onsetTimes s))) 32) (length rest)))
        by (unfold estimations; lia).
      reflexivity.
Qed.

End EvenOnsets.

Section EvenOnsetsEstimate.

Import BeatDetector.

Lemma even_onsets_from_empty (interval : Q) (times : list Q) (s : t) :
  315 < interval -> interval < 500 ->
  evenlySpaced interval times ->
  onsetTimes s = [] -> bpmLocked s = false ->
  estimatedBPM (recordOnsets times s)
    = smoothTimes (JS.round (60000 / inject_Z (bucketOf interval)))
        (length times - 3) (estimatedBPM s).
Proof.
  intros Hlo Hhi Hev Hempty Hun.
  rewrite (recordOnsets_even interval times Hlo Hhi s Hun).
  - rewrite Hempty. unfold estimations. cbn [length].
    f_equal. lia.
  - rewrite Hempty. unfold maxOnsets. cbn [length]. lia.
  - rewrite Hempty. exact Hev.
Qed.

(** C2, as the code has it.  Onsets that are all the same interval I
    apart, 315 < I < 500, recorded by an unlocked estimator that held none:
    the candidate of every re-estimation is [c = round(60000 / B)] for the
    10 ms bucket [B = 10 * round(I / 10)] of the interval, and lies in the
    range; from the 4th onset on every onset smooths the estimate once
    towards [c]; and once [|c - e0| - 1] such updates are done, for the
    estimate [e0] before the first onset, the estimate rests at [c - 1] when
    [e0 < c], at [c + 1] when [e0 > c], at [c] when [e0 = c]: within 1 BPM of
    the candidate. *)
Theorem estimate_on_even_onsets (interval : Q) (times : list Q) (s : t) :
  315 < interval -> interval < 500 ->
  evenlySpaced interval times ->
  (4 <= length times)%nat ->
  onsetTimes s = [] -> bpmLocked s = false ->
  let c := JS.round (60000 / inject_Z (bucketOf interval)) in
  let e := estimatedBPM (recordOnsets times s) in
  inRange c /\
  bucketOf interval = (JS.round (interval / 10) * 10)%Z /\
  e = smoothTimes c (length times - 3) (estimatedBPM s) /\
  ((Z.abs (c - estimatedBPM s) - 1 <= Z.of_nat (length times - 3))%Z ->
   e = settled c (estimatedBPM s) /\ (Z.abs (e - c) <= 1)%Z).
Proof.
  intros Hlo Hhi Hev Hlen Hempty Hun. cbv zeta.
  pose proof (even_onsets_from_empty interval times s Hlo Hhi Hev Hempty Hun)
    as He.
  split; [apply candidate_in_range; assumption |].
  split; [reflexivity |].
  split; [exact He |].
  intros Hn. rewrite He, (smoothTimes_settles _ _ _ Hn).
  split; [reflexivity | apply settled_near].
Qed.

Lemma estimate_on_even_onsets_witness :
  estimatedBPM (recordOnsets (onsetsEvery 0 400 12) (create 44100))
    = settled 150 140.
Proof.
  assert (H1 : 315 < 400) by reflexivity.
  assert (H2 : 400 < 500) by reflexivity.
  assert (H3 : evenlySpaced 400 (onsetsEvery 0 400 12))
    by (apply onsetsEvery_even).
  assert (H4 : (4 <= length (onsetsEvery 0 400 12))%nat) by (simpl; lia).
  destruct (estimate_on_even_onsets 400 (onsetsEvery 0 400 12) (create 44100)
              H1 H2 H3 H4 eq_refl eq_refl) as (_ & _ & _ & H).
  apply H. vm_compute. discriminate.
Defined.

(** C2, as the spec has it, fails.  With onsets every 400 ms on a new
    detector the estimate is 143 after the 4th onset and never becomes
    [round(60000 / 400) = 150]: it rests at 149.  With onsets every 395 ms,
    which fall into the same 400 ms bucket, it rests at 149 as well, 3 BPM
    away from [round(60000 / 395) = 152]. *)
Lemma estimate_stalls_short_of_nominal :
  estimatedBPM (recordOnsets (onsetsEvery 0 400 4) (create 44100)) = 143%Z /\
  JS.round (60000 / 400) = 150%Z /\
  ~ (exists N : nat, forall n : nat, (N <= n)%nat ->
       estimatedBPM (recordOnsets (onsetsEvery 0 400 n) (create 44100))
         = JS.round (60000 / 400)) /\
  JS.round (60000 / 395) = 152%Z /\
  ~ (exists N : nat, forall n : nat, (N <= n)%nat ->
       estimatedBPM (recordOnsets (onsetsEvery 0 395 n) (create 44100))
         = JS.round (60000 / 395)).
Proof.
  assert (Hrest : forall interval : Q,
             315 < interval -> interval < 500 ->
             JS.round (60000 / inject_Z (bucketOf interval)) = 150%Z ->
             forall n : nat, (12 <= n)%nat ->
               estimatedBPM
                 (recordOnsets (onsetsEvery 0 interval n) (create 44100))
                 = 149%Z).
  { intros interval Hlo Hhi Hc n Hn.
    rewrite (even_onsets_from_empty interval _ (create 44100) Hlo Hhi
               (onsetsEvery_even interval n 0) eq_refl eq_refl).
    rewrite Hc, onsetsEvery_length.
    rewrite smoothTimes_settles; [reflexivity |].
    cbn [estimatedBPM create]. lia. }
  split; [vm_compute; reflexivity |].
  split; [vm_compute; reflexivity |].
  split; [| split; [vm_compute; reflexivity |]].
  - intros [N H].
    specialize (H (Nat.max N 12) (Nat.le_max_l N 12)).
    rewrite (Hrest 400) in H;
      [| reflexivity | reflexivity | vm_compute; reflexivity
       | apply Nat.le_max_r].
    vm_compute in H. discriminate H.
  - intros [N H].
    specialize (H (Nat.max N 12) (Nat.le_max_l N 12)).
    rewrite (Hrest 395) in H;
      [| reflexivity | reflexivity | vm_compute; reflexivity
       | apply Nat.le_max_r].
    vm_compute in H. discriminate H.
Qed.

End EvenOnsetsEstimate.

(** * Further properties of the beat clock *)

Section ClockEmissions.

Import BeatClock.

Lemma max0_nonneg (x : Q) : 0 <= JS.max 0 x.
Proof.
  unfold JS.max. destruct (Qle_bool 0 x) eqn:E.
  - apply Qle_bool_iff. exact E.
  - lra.
Qed.

Lemma max0_of_nonneg (x : Q) : 0 <= x -> JS.max 0 x = x.
Proof.
  intros H. unfold JS.max. apply Qle_bool_iff in H. rewrite H. reflexivity.
Qed.

Lemma max0_of_nonpos (x : Q) : x <= 0 -> JS.max 0 x == 0.
Proof.
  intros H. unfold JS.max. destruct (Qle_bool 0 x) eqn:E.
  - apply Qle_bool_iff in E. lra.
  - reflexivity.
Qed.

Lemma max0_le (x y : Q) : x <= y -> JS.max 0 x <= JS.max 0 y.
Proof.
  intros H. unfold JS.max.
  destruct (Qle_bool 0 x) eqn:Ex; destruct (Qle_bool 0 y) eqn:Ey;
    try apply Qle_bool_iff in Ex; try apply Qle_bool_iff in Ey; try lra.
  exfalso.
  assert (G : 0 <= y) by lra. apply Qle_bool_iff in G. congruence.
Qed.

(** For a dividend that is not negative and a positive divisor,
    [(x % y) / y] is the fractional part of [x / y]. *)
Lemma rem_fraction (x y : Q) :
  0 <= x -> 0 < y ->
  JS.rem x y / y == x / y - inject_Z (Qfloor (x / y)) /\
  0 <= JS.rem x y / y /\ JS.rem x y / y < 1.
Proof.
  intros Hx Hy.
  assert (Hy0 : ~ y == 0) by (intros E; rewrite E in Hy; lra).
  assert (Hq : 0 <= x / y) by (apply Qle_shift_div_l; [exact Hy | lra]).
  assert (E : JS.rem x y / y == x / y - inject_Z (Qfloor (x / y))).
  { rewrite (rem_over_divisor x y Hy0). unfold JS.trunc.
    apply Qle_bool_iff in Hq. rewrite Hq. reflexivity. }
  split; [exact E |].
  rewrite E.
  pose proof (Qfloor_le (x / y)). pose proof (Qlt_floor (x / y)) as Hl.
  rewrite inject_Z_succ in Hl. lra.
Qed.

Lemma update_phase (now : Q) (c : t) :
  phase (fst (update now c)) = getPhase now c.
Proof.
  unfold update, getPhase. destruct (isRunning c); reflexivity.
Qed.

Lemma update_keeps_tempo (now : Q) (c : t) :
  bpm (snd (update now c)) = bpm c /\
  startTime (snd (update now c)) = startTime c /\
  isRunning (snd (update now c)) = isRunning c.
Proof.
  unfold update. destruct (isRunning c) eqn:E; cbn [negb]; [| auto].
  cbv zeta. destruct (_ <? _)%Z; cbn; auto.
Qed.

(** What [update()] does on a running clock, by the two cases of the
    onset test. *)
Lemma update_running (now : Q) (c : t) :
  isRunning c = true ->
  let decayTime := 60000 / bpm c * (3 # 10) in
  ((beatCount c < currentBeat now c)%Z /\
   isOnset (fst (update now c)) = true /\
   intensity (fst (update now c))
     = JS.max 0 (1 - (now - now) / decayTime) /\
   snd (update now c)
     = mk (bpm c) (startTime c) now (currentBeat now c) true) \/
  ((currentBeat now c <= beatCount c)%Z /\
   isOnset (fst (update now c)) = false /\
   intensity (fst (update now c))
     = JS.max 0 (1 - (now - lastBeatTime c) / decayTime) /\
   snd (update now c) = c).
Proof.
  intros Hrun. cbv zeta. unfold update, currentBeat. rewrite Hrun.
  cbn [negb]. cbv zeta.
  destruct (Z.ltb_spec (beatCount c)
              (JS.floor ((now - startTime c) / (60000 / bpm c))))
    as [Hlt | Hge].
  - left. cbn. auto.
  - right. cbn. auto.
Qed.

End ClockEmissions.

Section ClockInvariant.

Import BeatClock.
Import ClockRun.

Lemma timely_later (t1 t2 : Q) (c : t) :
  t1 <= t2 -> timely t1 c -> timely t2 c.
Proof.
  intros Hle [Hb H]. split; [exact Hb |].
  intros Hrun. destruct (H Hrun). split; lra.
Qed.

Lemma getPhase_unit (now : Q) (c : t) :
  timely now c -> 0 <= getPhase now c /\ getPhase now c < 1.
Proof.
  intros [Hb H]. unfold getPhase.
  destruct (isRunning c) eqn:Hrun; cbn [negb]; [| lra].
  destruct (H eq_refl) as [Hs _].
  apply rem_fraction; [lra | apply beat_duration_positive; exact Hb].
Qed.

Lemma max0_le_one (x : Q) : x <= 1 -> JS.max 0 x <= 1.
Proof.
  intros H. unfold JS.max. destruct (Qle_bool 0 x); lra.
Qed.

Lemma update_timely (now : Q) (c : t) :
  timely now c ->
  inUnitRange (fst (update now c)) /\ timely now (snd (update now c)).
Proof.
  intros Ht. pose proof Ht as [Hb H].
  unfold inUnitRange. rewrite update_phase.
  destruct (getPhase_unit now c Ht) as [Hp1 Hp2].
  destruct (isRunning c) eqn:Hrun.
  - destruct (H eq_refl) as [Hs Hl].
    pose proof (beat_duration_positive (bpm c) Hb) as Hbd.
    assert (Hd : 0 < 60000 / bpm c * (3 # 10)) by lra.
    destruct (update_running now c Hrun)
      as [(_ & _ & Hi & Hc) | (_ & _ & Hi & Hc)];
      cbv zeta in Hi; rewrite Hi, Hc.
    + split; [split; [exact Hp1 | split; [exact Hp2 | split]] |].
      * apply max0_nonneg.
      * apply max0_le_one.
        assert (E : (now - now) / (60000 / bpm c * (3 # 10)) == 0)
          by (unfold Qdiv; ring).
        rewrite E. lra.
      * split; [exact Hb |]. cbn. intros _. lra.
    + split; [split; [exact Hp1 | split; [exact Hp2 | split]] | exact Ht].
      * apply max0_nonneg.
      * apply max0_le_one.
        assert (G : 0 <= (now - lastBeatTime c) / (60000 / bpm c * (3 # 10))).
        { apply Qle_shift_div_l; [exact Hd | lra]. }
        lra.
  - unfold update. rewrite Hrun. cbn [negb fst snd intensity].
    split; [| exact Ht].
    split; [exact Hp1 | split; [exact Hp2 | lra]].
Qed.

Lemma setBPM_timely (now1 now2 b : Q) (c : t) :
  now1 <= now2 -> 0 < b -> timely now1 c ->
  timely now2 (setBPM now1 now2 b c).
Proof.
  intros Hle Hb Ht.
  destruct (Qeq_dec b (bpm c)) as [E | E].
  - rewrite (setBPM_same now1 now2 b c E).
    apply (timely_later now1 now2 c Hle Ht).
  - rewrite (setBPM_changed now1 now2 b c E).
    destruct (getPhase_unit now1 c Ht) as [Hp _].
    destruct Ht as [_ H].
    split; [exact Hb |].
    cbn [isRunning startTime lastBeatTime]. intros Hrun.
    destruct (H Hrun) as [_ Hl].
    pose proof (beat_duration_positive b Hb) as Hbd.
    assert (G : 0 <= getPhase now1 c * (60000 / b))
      by (apply Qmult_le_0_compat; lra).
    split; lra.
Qed.

Lemma exec_timely (last : Q) (cmd : command) (rest : list command) (c : t) :
  timely last c -> wellTimed last (cmd :: rest) ->
  exists last',
    Forall inUnitRange (fst (exec cmd c)) /\
    timely last' (snd (exec cmd c)) /\
    wellTimed last' rest.
Proof.
  intros Ht Hw. destruct cmd as [now | | now1 now2 b | now]; cbn in Hw.
  - destruct Hw as [Hle Hw]. exists now. cbn [exec fst snd].
    split; [constructor |]. split; [| exact Hw].
    split; [apply Ht |]. cbn. intros _. lra.
  - exists last. cbn [exec fst snd].
    split; [constructor |]. split; [| exact Hw].
    split; [apply Ht |]. cbn. intros E. discriminate E.
  - destruct Hw as (H1 & H2 & Hb & Hw). exists now2. cbn [exec fst snd].
    split; [constructor |]. split; [| exact Hw].
    apply (setBPM_timely now1 now2 b c H2 Hb
             (timely_later last now1 c H1 Ht)).
  - destruct Hw as [Hle Hw]. exists now.
    destruct (update_timely now c (timely_later last now c Hle Ht))
      as [Hi Ht'].
    cbn [exec]. destruct (update now c) as [info c']. cbn [fst snd] in *.
    split; [constructor; [exact Hi | constructor] |].
    split; [exact Ht' | exact Hw].
Qed.

Lemma run_timely (cmds : list ClockRun.command) :
  forall (last : Q) (c : t),
    timely last c -> ClockRun.wellTimed last cmds ->
    Forall inUnitRange (fst (ClockRun.run cmds c)).
Proof.
  induction cmds as [| cmd rest IH]; intros last c Ht Hw.
  - constructor.
  - destruct (exec_timely last cmd rest c Ht Hw) as (last' & H1 & H2 & H3).
    cbn [ClockRun.run].
    destruct (ClockRun.exec cmd c) as [out1 c1]. cbn [fst snd] in *.
    specialize (IH last' c1 H2 H3).
    destruct (ClockRun.run rest c1) as [out2 c2]. cbn [fst] in *.
    apply Forall_app. split; assumption.
Qed.

End ClockInvariant.

Section ClockProperties.

Import BeatClock.
Import ClockRun.

(** X1.  Over any run of [start()], [stop()], [setBPM()] and [update()]
    whose clock readings never go back and whose tempos are positive, every
    record [update()] emits has its phase in [0, 1) and its intensity in
    [0, 1]. *)
Theorem emitted_info_in_range (bpm0 last : Q) (cmds : list command) :
  0 < bpm0 -> wellTimed last cmds ->
  Forall inUnitRange (fst (run cmds (create bpm0))).
Proof.
  intros Hb Hw. apply (run_timely cmds last (create bpm0)); [| exact Hw].
  split; [exact Hb |]. cbn. intros E. discriminate E.
Qed.

Lemma emitted_info_in_range_witness :
  Forall inUnitRange
    (fst (run [Start 0; Update 100; Update 1100; SetBPM 1100 1101 150;
               Update 1500; Stop; Update 1600]
              (create 120))).
Proof.
  apply (emitted_info_in_range 120 0).
  - reflexivity.
  - cbn. repeat split; try reflexivity; intros H; discriminate H.
Defined.

(** X2.  A clock that is not running (never started, or stopped) answers
    every [update()] with the neutral record [{phase: 0, intensity: 0,
    isOnset: false, bpm}] and is not changed by it. *)
Theorem stopped_clock_is_neutral (times : list Q) (c : t) :
  isRunning c = false ->
  updates times c = (map (fun _ => neutral (bpm c)) times, c).
Proof.
  intros Hrun. induction times as [| now rest IH]; [reflexivity |].
  cbn [updates map]. unfold update at 1. rewrite Hrun. cbn [negb].
  rewrite IH. reflexivity.
Qed.

Lemma stopped_clock_is_neutral_witness :
  updates [2000; 2500] (stop (start 0 (create 140)))
    = ([neutral 140; neutral 140], stop (start 0 (create 140))).
Proof.
  apply (stopped_clock_is_neutral [2000; 2500] (stop (start 0 (create 140)))).
  reflexivity.
Defined.

(** X3.  No double trigger: a second [update()] at the same clock reading
    never signals an onset, whatever the clock. *)
Theorem no_double_onset (now : Q) (c : t) :
  isOnset (fst (update now (snd (update now c)))) = false.
Proof.
  destruct (isRunning c) eqn:Hrun.
  - destruct (update_running now c Hrun)
      as [(Hlt & _ & _ & Hc) | (Hle & Ho & _ & Hc)]; rewrite Hc.
    + rewrite update_isOnset by reflexivity.
      unfold currentBeat. cbn [beatCount startTime bpm].
      apply Z.ltb_irrefl.
    + exact Ho.
  - unfold update. rewrite Hrun. cbn [negb snd]. rewrite Hrun. reflexivity.
Qed.



End ClockProperties.

Section BeatTiming.

Import BeatClock.

Lemma start_currentBeat (t0 now : Q) (c : t) :
  currentBeat now (start t0 c) = Qfloor ((now - t0) / (60000 / bpm c)).
Proof. reflexivity. Qed.

(** X5.  The first beat.  After [start()] at [t0] on a clock with a
    positive tempo, an [update()] before one beat duration has gone by
    signals no onset and has the phase [(t - t0) / beatDuration]; an
    [update()] at or after [t0 + beatDuration] signals the onset, at full
    intensity; and at exactly [t0 + beatDuration] the phase is 0. *)
Theorem first_beat_after_start (t0 : Q) (c : t) :
  0 < bpm c ->
  let beatDuration := 60000 / bpm c in
  let c1 := start t0 c in
  (forall now, t0 <= now -> now < t0 + beatDuration ->
     isOnset (fst (update now c1)) = false /\
     phase (fst (update now c1)) == (now - t0) / beatDuration) /\
  (forall now, t0 + beatDuration <= now ->
     isOnset (fst (update now c1)) = true /\
     intensity (fst (update now c1)) == 1) /\
  phase (fst (update (t0 + beatDuration) c1)) == 0.
Proof.
  intros Hb. cbv zeta.
  pose proof (beat_duration_positive (bpm c) Hb) as Hbd.
  set (bd := 60000 / bpm c) in *.
  assert (Hbd0 : ~ bd == 0) by (intros E; rewrite E in Hbd; lra).
  assert (Hrun : isRunning (start t0 c) = true) by reflexivity.
  assert (Hphase : forall now, t0 <= now ->
            phase (fst (update now (start t0 c)))
              == (now - t0) / bd - inject_Z (Qfloor ((now - t0) / bd))).
  { intros now Hle. rewrite update_phase, (getPhase_running _ _ Hrun).
    cbn [start startTime bpm]. fold bd.
    apply rem_fraction; lra. }
  split; [| split].
  - intros now Hlo Hhi.
    assert (Hq1 : 0 <= (now - t0) / bd)
      by (apply Qle_shift_div_l; [exact Hbd | lra]).
    assert (Hq2 : (now - t0) / bd < 1)
      by (apply Qlt_shift_div_r; [exact Hbd | lra]).
    assert (Hf : Qfloor ((now - t0) / bd) = 0%Z)
      by (apply floor_unique; [change (0 <= (now - t0) / bd)
                              | change ((now - t0) / bd < 1)]; assumption).
    split.
    + rewrite (update_isOnset now _ Hrun), start_currentBeat. fold bd.
      rewrite Hf. reflexivity.
    + rewrite (Hphase now Hlo), Hf. change (inject_Z 0) with 0. ring.
  - intros now Hlo.
    assert (Hq : 1 <= (now - t0) / bd)
      by (apply Qle_shift_div_l; [exact Hbd | lra]).
    assert (Hf : (1 <= Qfloor ((now - t0) / bd))%Z).
    { change 1%Z with (Qfloor 1). apply Qfloor_resp_le. exact Hq. }
    destruct (update_running now (start t0 c) Hrun)
      as [(_ & Ho & Hi & _) | (Hle & _)].
    + split; [exact Ho |]. cbv zeta in Hi. rewrite Hi.
      assert (E : (now - now) / (60000 / bpm (start t0 c) * (3 # 10)) == 0)
        by (unfold Qdiv; ring).
      rewrite max0_of_nonneg by (rewrite E; lra).
      rewrite E. ring.
    + rewrite start_currentBeat in Hle. fold bd in Hle.
      cbn [start beatCount] in Hle. lia.
  - rewrite Hphase by lra.
    assert (E : (t0 + bd - t0) / bd == 1) by (field; exact Hbd0).
    rewrite (Qfloor_comp _ _ E), E. change (inject_Z (Qfloor 1)) with 1. ring.
Qed.

Lemma first_beat_after_start_witness :
  isOnset (fst (update 500 (start 0 (create 120)))) = true.
Proof.
  assert (H : 0 < bpm (create 120)) by reflexivity.
  destruct (first_beat_after_start 0 (create 120) H) as (_ & H2 & _).
  apply (H2 500). vm_compute. discriminate.
Defined.

(** X6.  Every onset is a full-intensity emission that restarts the decay:
    when [update()] signals an onset its intensity is 1, the time of the
    last beat becomes the clock reading and the stored beat count rises to
    the current beat index. *)
Theorem onset_has_full_intensity (now : Q) (c : t) :
  isOnset (fst (update now c)) = true ->
  intensity (fst (update now c)) == 1 /\
  lastBeatTime (snd (update now c)) = now /\
  beatCount (snd (update now c)) = currentBeat now c /\
  (beatCount c < beatCount (snd (update now c)))%Z.
Proof.
  intros Ho.
  destruct (isRunning c) eqn:Hrun.
  - destruct (update_running now c Hrun)
      as [(Hlt & _ & Hi & Hc) | (_ & Hn & _)]; [| congruence].
    cbv zeta in Hi. rewrite Hi, Hc. cbn [lastBeatTime beatCount].
    assert (E : (now - now) / (60000 / bpm c * (3 # 10)) == 0)
      by (unfold Qdiv; ring).
    rewrite max0_of_nonneg by (rewrite E; lra).
    rewrite E.
    split; [ring |]. split; [reflexivity |]. split; [reflexivity | exact Hlt].
  - unfold update in Ho. rewrite Hrun in Ho. discriminate Ho.
Qed.

Lemma onset_has_full_intensity_witness :
  intensity (fst (update 1100 (start 0 (create 120)))) == 1.
Proof.
  apply (onset_has_full_intensity 1100 (start 0 (create 120))).
  reflexivity.
Defined.

(** X7.  Between onsets, and with no other call in between (no tempo
    change, no restart), the intensity only falls: when two [update()]
    calls in a row on a running clock reach no new beat, neither signals an
    onset, the second emits the lower or equal intensity, the clock is left
    as it was, and once 30% of a beat duration has gone by since the last
    beat the intensity is 0. *)
Theorem intensity_decays (t1 t2 : Q) (c : t) :
  isRunning c = true -> 0 < bpm c -> t1 <= t2 ->
  (currentBeat t2 c <= beatCount c)%Z ->
  exists i1 i2,
    updates [t1; t2] c = ([i1; i2], c) /\
    isOnset i1 = false /\ isOnset i2 = false /\
    intensity i2 <= intensity i1 /\
    (lastBeatTime c + 60000 / bpm c * (3 # 10) <= t2 -> intensity i2 == 0).
Proof.
  intros Hrun Hb Hle H2.
  pose proof (currentBeat_monotone t1 t2 c Hb Hle) as Hmono.
  pose proof (beat_duration_positive (bpm c) Hb) as Hbd.
  assert (Hd : 0 < 60000 / bpm c * (3 # 10)) by lra.
  set (d := 60000 / bpm c * (3 # 10)) in *.
  destruct (update_running t1 c Hrun)
    as [(Hlt & _) | (_ & Ho1 & Hi1 & Hc1)]; [lia |].
  destruct (update_running t2 c Hrun)
    as [(Hlt & _) | (_ & Ho2 & Hi2 & Hc2)]; [lia |].
  cbv zeta in Hi1, Hi2. fold d in Hi1, Hi2.
  exists (fst (update t1 c)), (fst (update t2 c)).
  split.
  - cbn [updates].
    destruct (update t1 c) as [i1 c1] eqn:E1. cbn [fst snd] in *. subst c1.
    destruct (update t2 c) as [i2 c2] eqn:E2. cbn [fst snd] in *. subst c2.
    reflexivity.
  - split; [exact Ho1 |]. split; [exact Ho2 |].
    rewrite Hi1, Hi2. split.
    + apply max0_le.
      assert (G : (t1 - lastBeatTime c) / d <= (t2 - lastBeatTime c) / d).
      { unfold Qdiv. apply Qmult_le_compat_r; [lra |].
        apply Qlt_le_weak, Qinv_lt_0_compat. exact Hd. }
      lra.
    + intros Hlate. apply max0_of_nonpos.
      assert (G : 1 <= (t2 - lastBeatTime c) / d)
        by (apply Qle_shift_div_l; [exact Hd | lra]).
      lra.
Qed.

Lemma intensity_decays_witness :
  exists i1 i2,
    updates [100; 300] (start 0 (create 120))
      = ([i1; i2], start 0 (create 120)) /\
    intensity i2 <= intensity i1.
Proof.
  destruct (intensity_decays 100 300 (start 0 (create 120)))
    as (i1 & i2 & H1 & _ & _ & H2 & _).
  - reflexivity.
  - reflexivity.
  - intros H. discriminate H.
  - vm_compute. discriminate.
  - exists i1, i2. split; assumption.
Defined.

(** X9.  A tempo change before the first beat does no harm: when the
    stored beat count is still 0 and the start time is not after the clock
    reading, [setBPM] with a new positive tempo leaves the count equal to
    the recomputed beat index, so the next onset comes exactly when that
    index passes 0. *)
Theorem setBPM_before_first_beat_keeps_sync (now1 now2 b : Q) (c : t) :
  isRunning c = true -> 0 < bpm c -> 0 < b -> ~ b == bpm c ->
  startTime c <= now1 -> beatCount c = 0%Z ->
  let c' := setBPM now1 now2 b c in
  synced now2 c' /\
  (forall now,
     isOnset (fst (update now c')) = true <-> (0 < currentBeat now c')%Z).
Proof.
  intros Hrun Hbpm Hb Hne Hs Hcount. cbv zeta.
  assert (Hb0 : ~ b == 0) by (intros E; rewrite E in Hb; lra).
  destruct (rem_fraction (now1 - startTime c) (60000 / bpm c))
    as (_ & Hp1 & Hp2); [lra | apply beat_duration_positive; exact Hbpm |].
  rewrite <- (getPhase_running now1 c Hrun) in Hp1, Hp2.
  rewrite (setBPM_changed now1 now2 b c Hne).
  set (p := getPhase now1 c) in *.
  split.
  - unfold synced, currentBeat, JS.floor. cbn [beatCount startTime bpm].
    assert (E : (now2 - (now2 - p * (60000 / b))) / (60000 / b) == p)
      by (field; exact Hb0).
    rewrite (Qfloor_comp _ _ E), Hcount. symmetry.
    apply floor_unique; [change (0 <= p) | change (p < 1)]; assumption.
  - intros now. rewrite update_isOnset by exact Hrun.
    cbn [beatCount]. rewrite Hcount. apply Z.ltb_lt.
Qed.

Lemma setBPM_before_first_beat_keeps_sync_witness :
  synced 200 (setBPM 200 200 150 (start 0 (create 120))).
Proof.
  apply (setBPM_before_first_beat_keeps_sync 200 200 150 (start 0 (create 120))).
  - reflexivity.
  - reflexivity.
  - reflexivity.
  - intros H. discriminate H.
  - intros H. discriminate H.
  - reflexivity.
Defined.

End BeatTiming.

(** * Further properties of the tap tempo *)

Section TapBuffer.

Import TapTempo.

Lemma pushCapped_bounds (cap : nat) (x : Q) (xs : list Q) :
  (1 <= cap)%nat -> (length xs <= cap)%nat ->
  (1 <= length (JS.pushCapped cap x xs) <= cap)%nat.
Proof.
  intros Hcap Hlen. unfold JS.pushCapped.
  assert (Hl : length (xs ++ [x]) = S (length xs))
    by (rewrite length_app; simpl; lia).
  rewrite Hl.
  destruct (Nat.ltb_spec cap (S (length xs))).
  - destruct xs as [| a xs']; cbn [length] in *; [lia |].
    cbn [app tl]. rewrite length_app. cbn [length]. lia.
  - lia.
Qed.

Lemma pushCapped_nonempty (cap : nat) (x : Q) (xs : list Q) :
  (1 <= cap)%nat -> exists ys, JS.pushCapped cap x xs = ys ++ [x].
Proof.
  intros Hcap. unfold JS.pushCapped.
  destruct (Nat.ltb_spec cap (length (xs ++ [x]))) as [H | H].
  - destruct xs as [| a xs'].
    + cbn in H. lia.
    + exists xs'. reflexivity.
  - exists xs. reflexivity.
Qed.

(** The taps [tap()] keeps before it pushes the new one. *)
Lemma tap_buffer (now : Q) (s : t) :
  exists kept,
    taps (snd (tap now s)) = JS.pushCapped maxTaps now kept /\
    (kept = [] \/ kept = taps s) /\
    fst (tap now s)
      = if (length (JS.pushCapped maxTaps now kept) <? 2)%nat then None
        else Some (toBPM
                     (totalInterval (JS.pushCapped maxTaps now kept)
                      / inject_Z (Z.of_nat
                          (length (JS.pushCapped maxTaps now kept) - 1)))).
Proof.
  unfold tap.
  set (kept := match JS.lastOf (taps s) with
               | Some l => if JS.gtb (now - l) maxInterval then [] else taps s
               | None => taps s
               end).
  exists kept. split; [| split].
  - destruct (length _ <? 2)%nat; reflexivity.
  - unfold kept. destruct (JS.lastOf (taps s)); [| auto].
    destruct (JS.gtb _ _); auto.
  - destruct (length _ <? 2)%nat; reflexivity.
Qed.

Lemma tap_length (now : Q) (s : t) :
  (length (taps s) <= maxTaps)%nat ->
  (1 <= length (taps (snd (tap now s))) <= maxTaps)%nat.
Proof.
  intros H. destruct (tap_buffer now s) as (kept & Hk & [E | E] & _);
    rewrite Hk, E; apply pushCapped_bounds; unfold maxTaps in *; cbn; lia.
Qed.

Lemma tapAll_length (times : list Q) :
  forall s, (length (taps s) <= maxTaps)%nat ->
            (length (taps (tapAll times s)) <= maxTaps)%nat.
Proof.
  induction times as [| now rest IH]; intros s H; [exact H |].
  cbn [tapAll fold_left]. apply IH. apply tap_length. exact H.
Qed.

(** X10.  The tap buffer is bounded: after any sequence of taps on a new
    helper, one more tap leaves between 1 and 8 taps in the buffer. *)
Theorem tap_buffer_bounded (times : list Q) (now : Q) :
  (1 <= length (taps (snd (tap now (tapAll times create)))) <= 8)%nat.
Proof.
  apply tap_length. apply tapAll_length. unfold maxTaps. cbn. lia.
Qed.

Lemma toBPM_range (avgInterval : Q) : (60 <= toBPM avgInterval <= 200)%Z.
Proof.
  unfold toBPM. destruct (Qeq_bool avgInterval 0); lia.
Qed.

(** X11.  What [tap()] returns: [null] exactly when the buffer then holds a
    single tap (the first tap, or the first after a gap), and otherwise an
    integer tempo between 60 and 200. *)
Theorem tap_result_range (now : Q) (s : t) :
  match fst (tap now s) with
  | None => length (taps (snd (tap now s))) = 1%nat
  | Some b =>
      (60 <= b <= 200)%Z /\ (2 <= length (taps (snd (tap now s))))%nat
  end.
Proof.
  destruct (tap_buffer now s) as (kept & Hk & _ & Hr).
  rewrite Hr, Hk.
  destruct (pushCapped_nonempty maxTaps now kept) as [ys Hy];
    [unfold maxTaps; lia |].
  destruct (Nat.ltb_spec (length (JS.pushCapped maxTaps now kept)) 2).
  - rewrite Hy in *. rewrite length_app in *. cbn [length] in *. lia.
  - split; [apply toBPM_range | assumption].
Qed.

(** X12.  The gap test is strict: when the newest buffered tap is at most
    2000 ms old (exactly 2000 included) the buffer is kept, the new tap is
    pushed and the oldest tap is dropped only beyond 8. *)
Theorem tap_keeps_recent (now l : Q) (s : t) :
  JS.lastOf (taps s) = Some l -> now - l <= 2000 ->
  taps (snd (tap now s)) = JS.pushCapped 8 now (taps s).
Proof.
  intros Hl Hgap. unfold tap. rewrite Hl.
  assert (G : JS.gtb (now - l) maxInterval = false).
  { destruct (JS.gtb (now - l) maxInterval) eqn:E; [| reflexivity].
    apply gtb_gt in E. unfold maxInterval in E. lra. }
  rewrite G. destruct (length _ <? 2)%nat; reflexivity.
Qed.

Lemma tap_keeps_recent_witness :
  taps (snd (tap 2500 (tapAll [0; 500] create))) = [0; 500; 2500].
Proof.
  apply (tap_keeps_recent 2500 500 (tapAll [0; 500] create)).
  - reflexivity.
  - intros H. discriminate H.
Defined.

End TapBuffer.

Section TapTempoValue.

Import TapTempo.

Lemma toBPM_comp (x y : Q) : x == y -> toBPM x = toBPM y.
Proof.
  intros H. unfold toBPM, JS.round.
  assert (E1 : Qeq_bool x 0 = Qeq_bool y 0).
  { destruct (Qeq_bool x 0) eqn:Ex; destruct (Qeq_bool y 0) eqn:Ey;
      try reflexivity.
    - apply Qeq_bool_iff in Ex. rewrite H in Ex.
      apply Qeq_bool_iff in Ex. congruence.
    - apply Qeq_bool_iff in Ey. rewrite <- H in Ey.
      apply Qeq_bool_iff in Ey. congruence. }
  rewrite E1.
  rewrite (Qfloor_comp (60000 / x + (1 # 2)) (60000 / y + (1 # 2)))
    by (rewrite H; reflexivity).
  reflexivity.
Qed.

Lemma lastOf_snoc (xs : list Q) (l : Q) : JS.lastOf (xs ++ [l]) = Some l.
Proof.
  unfold JS.lastOf. rewrite rev_app_distr. reflexivity.
Qed.

Lemma lastOf_inv (xs : list Q) (l : Q) :
  JS.lastOf xs = Some l -> exists ys, xs = ys ++ [l].
Proof.
  unfold JS.lastOf. intros H.
  destruct (rev xs) as [| x r] eqn:E; [discriminate |].
  injection H as ->. exists (rev r).
  rewrite <- (rev_involutive xs), E. reflexivity.
Qed.

Lemma evenlySpaced_snoc (d l now : Q) (ys : list Q) :
  BeatDetector.evenlySpaced d (ys ++ [l]) -> now - l == d ->
  BeatDetector.evenlySpaced d ((ys ++ [l]) ++ [now]).
Proof.
  intros Hev Hd. induction ys as [| a ys IH].
  - cbn. auto.
  - destruct ys as [| b ys'].
    + cbn in *. tauto.
    + destruct Hev as [H1 H2]. split; [exact H1 |]. apply IH. exact H2.
Qed.

Lemma totalInterval_even (d : Q) (xs : list Q) :
  BeatDetector.evenlySpaced d xs ->
  totalInterval xs == d * inject_Z (Z.of_nat (length xs - 1)).
Proof.
  induction xs as [| a xs IH]; intros Hev.
  - cbn. ring.
  - destruct xs as [| b xs'].
    + cbn. ring.
    + destruct Hev as [H1 H2].
      change (totalInterval (a :: b :: xs'))
        with ((b - a) + totalInterval (b :: xs')).
      rewrite (IH H2), H1. cbn [length].
      rewrite !Nat.sub_succ, !Nat.sub_0_r, Nat2Z.inj_succ.
      unfold Z.succ. rewrite inject_Z_plus. change (inject_Z 1) with 1. ring.
Qed.

Lemma pushCapped_even_any (cap : nat) (d x : Q) (xs : list Q) :
  BeatDetector.evenlySpaced d (xs ++ [x]) ->
  BeatDetector.evenlySpaced d (JS.pushCapped cap x xs).
Proof.
  intros H. unfold JS.pushCapped.
  destruct (cap <? _)%nat; [apply evenlySpaced_tl |]; exact H.
Qed.

(** X14.  Steady tapping: when the buffered taps are all [d] apart, with
    [0 < d <= 2000], and the new tap comes [d] after the newest one, [tap()]
    returns [round(60000 / d)] clamped to [60, 200]. *)
Theorem steady_taps_give_tempo (d now l : Q) (s : t) :
  0 < d -> d <= 2000 ->
  BeatDetector.evenlySpaced d (taps s) ->
  JS.lastOf (taps s) = Some l -> now - l == d ->
  fst (tap now s) = Some (Z.max 60 (Z.min 200 (JS.round (60000 / d)))).
Proof.
  intros Hd0 Hd1 Hev Hl Hgap.
  destruct (lastOf_inv _ _ Hl) as [ys Hys].
  assert (Hkeep : JS.gtb (now - l) maxInterval = false).
  { destruct (JS.gtb (now - l) maxInterval) eqn:E; [| reflexivity].
    apply gtb_gt in E. unfold maxInterval in E. lra. }
  unfold tap. rewrite Hl, Hkeep.
  set (buffer := JS.pushCapped maxTaps now (taps s)).
  assert (Hevb : BeatDetector.evenlySpaced d buffer).
  { apply pushCapped_even_any. rewrite Hys in *.
    apply evenlySpaced_snoc; assumption. }
  assert (Hlen : (2 <= length buffer)%nat).
  { unfold buffer, JS.pushCapped.
    assert (Hn : length (taps s ++ [now]) = S (length (taps s)))
      by (rewrite length_app; cbn; lia).
    assert (Hpos : (1 <= length (taps s))%nat)
      by (rewrite Hys, length_app; cbn; lia).
    rewrite Hn.
    destruct (Nat.ltb_spec maxTaps (S (length (taps s)))) as [Hc | Hc].
    - unfold maxTaps in Hc.
      destruct (taps s) as [| a xs']; cbn [length] in *; [lia |].
      cbn [app tl]. rewrite length_app. cbn [length]. lia.
    - lia. }
  destruct (Nat.ltb_spec (length buffer) 2) as [Hs | _]; [lia |].
  cbn [fst]. f_equal.
  assert (Havg : totalInterval buffer
                   / inject_Z (Z.of_nat (length buffer - 1)) == d).
  { rewrite (totalInterval_even d buffer Hevb).
    field. intros E.
    unfold Qeq in E. cbn [Qnum Qden inject_Z] in E. lia. }
  rewrite (toBPM_comp _ _ Havg). unfold toBPM.
  assert (Hnz : Qeq_bool d 0 = false).
  { destruct (Qeq_bool d 0) eqn:E; [| reflexivity].
    apply Qeq_bool_iff in E. lra. }
  rewrite Hnz. reflexivity.
Qed.

Lemma steady_taps_give_tempo_witness :
  fst (tap 1200 (tapAll [0; 400; 800] create))
    = Some (Z.max 60 (Z.min 200 (JS.round (60000 / 400)))).
Proof.
  apply (steady_taps_give_tempo 400 1200 800 (tapAll [0; 400; 800] create)).
  - reflexivity.
  - intros H. discriminate H.
  - cbn. split; [reflexivity | split; [reflexivity | exact I]].
  - reflexivity.
  - reflexivity.
Defined.

End TapTempoValue.

(** * The store tempo and the scene index *)

Section StoreTempo.

Import Store.

Lemma setBpm_range (x : Q) : 120 <= setBpm x /\ setBpm x <= 190.
Proof.
  unfold setBpm, JS.max, JS.min.
  destruct (Qle_bool 190 x) eqn:E1.
  - change (Qle_bool 120 190) with true. cbv iota. lra.
  - destruct (Qle_bool 120 x) eqn:E2.
    + apply Qle_bool_iff in E2. split; [exact E2 |].
      apply Qlt_le_weak, Qnot_le_lt. intros H.
      apply Qle_bool_iff in H. congruence.
    + lra.
Qed.

(** X15.  The store clamps the manual tempo: [setBpm] always stores a
    value between 120 and 190, stores a value of that range unchanged, and
    clamping twice is clamping once. *)
Theorem store_setBpm_clamps (x : Q) :
  (120 <= setBpm x /\ setBpm x <= 190) /\
  (120 <= x -> x <= 190 -> setBpm x == x) /\
  setBpm (setBpm x) == setBpm x.
Proof.
  assert (Hfix : forall y, 120 <= y -> y <= 190 -> setBpm y == y).
  { intros y H1 H2. unfold setBpm, JS.max, JS.min.
    destruct (Qle_bool 190 y) eqn:E1.
    - apply Qle_bool_iff in E1.
      change (Qle_bool 120 190) with true. cbv iota. lra.
    - apply Qle_bool_iff in H1. rewrite H1. reflexivity. }
  split; [apply setBpm_range |].
  split; [apply Hfix |].
  destruct (setBpm_range x). apply Hfix; assumption.
Qed.

Lemma store_setBpm_clamps_witness : setBpm 150 == 150.
Proof.
  apply (proj1 (proj2 (store_setBpm_clamps 150))).
  - intros H. discriminate H.
  - intros H. discriminate H.
Defined.

(** X16.  The tap button keeps the store tempo in range: after
    [handleTapTempo] a tempo that was between 120 and 190 still is; with no
    estimate yet the tempo is left alone, and otherwise it is the clamped
    estimate (the test for a falsy estimate never rejects one, since
    [tap()] returns at least 60). *)
Theorem tap_button_tempo_in_range (now bpm : Q) (tt : TapTempo.t) :
  120 <= bpm -> bpm <= 190 ->
  (120 <= fst (handleTapTempo now bpm tt)
   /\ fst (handleTapTempo now bpm tt) <= 190) /\
  snd (handleTapTempo now bpm tt) = snd (TapTempo.tap now tt) /\
  fst (handleTapTempo now bpm tt)
    = match fst (TapTempo.tap now tt) with
      | None => bpm
      | Some n => setBpm (inject_Z n)
      end.
Proof.
  intros H1 H2. unfold handleTapTempo.
  pose proof (tap_result_range now tt) as Hr.
  destruct (TapTempo.tap now tt) as [[n |] tt']; cbn [fst snd] in *.
  - destruct Hr as [Hn _].
    destruct (Z.eqb_spec n 0) as [E | _]; [lia |].
    cbn [fst snd]. split; [apply setBpm_range | auto].
  - cbn [fst snd]. auto.
Qed.

Lemma tap_button_tempo_in_range_witness :
  fst (handleTapTempo 1000 140 (TapTempo.tapAll [0] TapTempo.create)) <= 190.
Proof.
  apply (tap_button_tempo_in_range 1000 140
           (TapTempo.tapAll [0] TapTempo.create)).
  - intros H. discriminate H.
  - intros H. discriminate H.
Defined.

(** X17.  Stepping through the scenes wraps round and undoes itself: for an
    index in [0, sceneCount), [nextScene] and [prevScene] stay in that
    range, the last scene is followed by the first, the first is preceded
    by the last, and each step undoes the other. *)
Theorem scene_steps_round_trip (i n : Z) :
  (0 <= i < n)%Z ->
  (0 <= nextScene i n < n)%Z /\
  (0 <= prevScene i n < n)%Z /\
  nextScene (n - 1) n = 0%Z /\
  prevScene 0 n = (n - 1)%Z /\
  prevScene (nextScene i n) n = i /\
  nextScene (prevScene i n) n = i.
Proof.
  intros Hi.
  assert (Hnext : forall j, (0 <= j < n)%Z ->
            nextScene j n = if (j + 1 =? n)%Z then 0%Z else (j + 1)%Z).
  { intros j Hj. unfold nextScene.
    rewrite Z.rem_mod_nonneg by lia.
    destruct (Z.eqb_spec (j + 1) n) as [E | E].
    - rewrite E. apply Z_mod_same_full.
    - apply Z.mod_small. lia. }
  assert (Hprev : forall j, (0 <= j < n)%Z ->
            prevScene j n = if (j =? 0)%Z then (n - 1)%Z else (j - 1)%Z).
  { intros j Hj. unfold prevScene.
    rewrite Z.rem_mod_nonneg by lia.
    destruct (Z.eqb_spec j 0) as [E | E].
    - subst j. replace (0 - 1 + n)%Z with (n - 1)%Z by lia.
      apply Z.mod_small. lia.
    - replace (j - 1 + n)%Z with (j - 1 + 1 * n)%Z by lia.
      rewrite Z_mod_plus_full. apply Z.mod_small. lia. }
  assert (Hn : (0 <= nextScene i n < n)%Z).
  { rewrite (Hnext i Hi). destruct (Z.eqb_spec (i + 1) n); lia. }
  assert (Hp : (0 <= prevScene i n < n)%Z).
  { rewrite (Hprev i Hi). destruct (Z.eqb_spec i 0); lia. }
  split; [exact Hn |]. split; [exact Hp |].
  split; [| split; [| split]].
  - rewrite Hnext by lia. replace (n - 1 + 1)%Z with n by lia.
    rewrite Z.eqb_refl. reflexivity.
  - rewrite Hprev by lia. reflexivity.
  - rewrite (Hprev _ Hn), (Hnext i Hi).
    destruct (Z.eqb_spec (i + 1) n) as [E | E].
    + cbn. lia.
    + destruct (Z.eqb_spec (i + 1) 0); lia.
  - rewrite (Hnext _ Hp), (Hprev i Hi).
    destruct (Z.eqb_spec i 0) as [E | E].
    + replace (n - 1 + 1)%Z with n by lia. rewrite Z.eqb_refl. lia.
    + replace (i - 1 + 1)%Z with i by lia.
      destruct (Z.eqb_spec i n); lia.
Qed.

Lemma scene_steps_round_trip_witness :
  prevScene (nextScene 5 6) 6 = 5%Z.
Proof.
  apply (scene_steps_round_trip 5 6). lia.
Defined.

End StoreTempo.

(** * Further properties of the beat detector *)

Section DetectorFrames.

Import BeatDetector.

Variable sqrt : Q -> Q.

Lemma recordOnset_frame (time : Q) (s : t) :
  onsetTimes (recordOnset time s)
    = JS.pushCapped maxOnsets time (onsetTimes s) /\
  lastOnsetTime (recordOnset time s) = lastOnsetTime s /\
  bpmLocked (recordOnset time s) = bpmLocked s /\
  lockedBPM (recordOnset time s) = lockedBPM s /\
  sensitivity (recordOnset time s) = sensitivity s /\
  smoothing (recordOnset time s) = smoothing s /\
  lastEnergy (recordOnset time s) = lastEnergy s.
Proof.
  unfold recordOnset, estimateBPM, acceptCandidate.
  cbn [bpmLocked onsetTimes].
  destruct (bpmLocked s); cbn [negb]; [cbn; repeat split |].
  destruct (candidateBPM _); [| cbn; repeat split].
  destruct (_ && _); cbn; repeat split.
Qed.

(** What [detectOnset] does, by its result. *)
Lemma detectOnset_cases (now : Q) (f b : list Q) (s : t) :
  let r := detectOnset sqrt now f b s in
  (bpmLocked (snd r) = bpmLocked s /\
   lockedBPM (snd r) = lockedBPM s /\
   sensitivity (snd r) = sensitivity s /\
   smoothing (snd r) = smoothing s) /\
  ((fst r = true /\
    200 < now - lastOnsetTime s /\
    lastOnsetTime (snd r) = now /\
    onsetTimes (snd r) = JS.pushCapped maxOnsets now (onsetTimes s)) \/
   (fst r = false /\
    lastOnsetTime (snd r) = lastOnsetTime s /\
    onsetTimes (snd r) = onsetTimes s /\
    estimatedBPM (snd r) = estimatedBPM s)).
Proof.
  cbv zeta. unfold detectOnset.
  destruct (length _ <? 10)%nat; [cbn; split; [repeat split | right; repeat split] |].
  cbv zeta.
  match goal with
  | |- context [if ?c1 && ?c2 then _ else _] =>
      destruct c1 eqn:E1; [destruct c2 eqn:E2 |]
  end; cbn [andb fst snd].
  - match goal with
    | |- context [recordOnset now ?s3] =>
        destruct (recordOnset_frame now s3) as (H1 & H2 & H3 & H4 & H5 & H6 & _)
    end.
    rewrite H1, H2, H3, H4, H5, H6. cbn.
    split; [repeat split |]. left.
    apply gtb_gt in E2. unfold minOnsetInterval in E2.
    repeat split. exact E2.
  - cbn. split; [repeat split | right; repeat split].
  - cbn. split; [repeat split | right; repeat split].
Qed.

End DetectorFrames.

Section DetectorWindows.

Import BeatDetector.

Variable sqrt : Q -> Q.

Lemma exec_windows (cmd : command) (s : t) :
  (length (energyHistory s) <= historySize)%nat ->
  (length (onsetTimes s) <= maxOnsets)%nat ->
  (length (energyHistory (exec sqrt cmd s)) <= historySize)%nat /\
  (length (onsetTimes (exec sqrt cmd s)) <= maxOnsets)%nat.
Proof.
  intros He Ho. destruct cmd as [v | v | now f b | | |]; cbn [exec];
    try (cbn; split; assumption).
  - split.
    + rewrite detectOnset_energyHistory.
      apply pushCapped_bounds; [unfold historySize; lia | exact He].
    + destruct (detectOnset_cases sqrt now f b s)
        as (_ & [(_ & _ & _ & H) | (_ & _ & H & _)]); rewrite H.
      * apply pushCapped_bounds; [unfold maxOnsets; lia | exact Ho].
      * exact Ho.
  - cbn. split; lia.
Qed.

(** X18.  The two sliding windows stay within their capacities: after any
    run of method calls on a new detector the energy history holds at most
    43 samples and the onset list at most 32 times. *)
Theorem windows_bounded (rate : Q) (cmds : list command) :
  (length (energyHistory (run sqrt cmds (create rate))) <= 43)%nat /\
  (length (onsetTimes (run sqrt cmds (create rate))) <= 32)%nat.
Proof.
  assert (H : forall s,
             (length (energyHistory s) <= historySize)%nat ->
             (length (onsetTimes s) <= maxOnsets)%nat ->
             (length (energyHistory (run sqrt cmds s)) <= historySize)%nat /\
             (length (onsetTimes (run sqrt cmds s)) <= maxOnsets)%nat).
  { induction cmds as [| cmd rest IH]; intros s He Ho; [auto |].
    cbn [run fold_left].
    destruct (exec_windows cmd s He Ho) as [He' Ho'].
    apply (IH _ He' Ho'). }
  apply H; cbn; lia.
Qed.


(** X20.  [detectOnset] records exactly the onsets it signals: a frame
    that signals none leaves the onset list, the estimate and the time of
    the last onset as they are; a frame that signals one pushes its clock
    reading on the onset list.  The lock, the locked value and the two knobs
    are never touched. *)
Theorem detectOnset_records_signalled_onsets
        (now : Q) (f b : list Q) (s : t) :
  let r := detectOnset sqrt now f b s in
  onsetTimes (snd r)
    = (if fst r then JS.pushCapped 32 now (onsetTimes s) else onsetTimes s) /\
  lastOnsetTime (snd r) = (if fst r then now else lastOnsetTime s) /\
  (fst r = false -> estimatedBPM (snd r) = estimatedBPM s) /\
  bpmLocked (snd r) = bpmLocked s /\
  lockedBPM (snd r) = lockedBPM s /\
  sensitivity (snd r) = sensitivity s /\
  smoothing (snd r) = smoothing s.
Proof.
  cbv zeta.
  destruct (detectOnset_cases sqrt now f b s)
    as ((H1 & H2 & H3 & H4)
        & [(Hr & _ & Hl & Ho) | (Hr & Hl & Ho & He)]);
    rewrite Hr, Hl, Ho; repeat split; try assumption;
    intros E; first [discriminate E | assumption].
Qed.

End DetectorWindows.


Section HistogramVoting.

Import BeatDetector.

Lemma bump_keys (b : Z) (m : list (Z * Z)) :
  (In b (map fst m) -> map fst (bump b m) = map fst m) /\
  (~ In b (map fst m) -> map fst (bump b m) = map fst m ++ [b]).
Proof.
  induction m as [| [k n] rest [IH1 IH2]]; cbn [bump map fst].
  - split; [intros [] | reflexivity].
  - destruct (Z.eqb_spec k b) as [E | E]; cbn [map fst app].
    + split; [reflexivity |]. intros H. exfalso. apply H. left. exact E.
    + split.
      * intros [H | H]; [contradiction |]. rewrite (IH1 H). reflexivity.
      * intros H. rewrite IH2; [reflexivity |].
        intros G. apply H. right. exact G.
Qed.

Lemma bump_totalCount (b : Z) (m : list (Z * Z)) :
  totalCount (bump b m) = (totalCount m + 1)%Z.
Proof.
  unfold totalCount.
  induction m as [| [k n] rest IH]; cbn [bump fold_right snd].
  - lia.
  - destruct (k =? b)%Z; cbn [fold_right snd]; lia.
Qed.

Lemma bump_positive (b : Z) (m : list (Z * Z)) :
  Forall (fun e => (1 <= snd e)%Z) m ->
  Forall (fun e => (1 <= snd e)%Z) (bump b m).
Proof.
  induction 1 as [| [k n] rest Hn Hrest IH]; cbn [bump].
  - constructor; [cbn; lia | constructor].
  - destruct (k =? b)%Z; constructor; cbn [snd] in *; try lia; assumption.
Qed.

Lemma bump_NoDup (b : Z) (m : list (Z * Z)) :
  NoDup (map fst m) -> NoDup (map fst (bump b m)).
Proof.
  intros H. destruct (bump_keys b m) as [H1 H2].
  destruct (in_dec Z.eq_dec b (map fst m)) as [Hin | Hout].
  - rewrite (H1 Hin). exact H.
  - rewrite (H2 Hout). apply NoDup_app.
    + exact H.
    + constructor; [intros [] | constructor].
    + intros x Hx [E | []]. subst x. contradiction.
Qed.

Lemma bump_In_key (b k : Z) (m : list (Z * Z)) :
  In k (map fst (bump b m)) <-> k = b \/ In k (map fst m).
Proof.
  destruct (bump_keys b m) as [H1 H2].
  destruct (in_dec Z.eq_dec b (map fst m)) as [Hin | Hout].
  - rewrite (H1 Hin). split; [auto |]. intros [-> | H]; assumption.
  - rewrite (H2 Hout), in_app_iff. cbn. split.
    + intros [H | [H | []]]; auto.
    + intros [-> | H]; auto.
Qed.

Lemma fold_bump_spec (xs : list Q) :
  forall m : list (Z * Z),
    let h := fold_left (fun buckets x => bump (bucketOf x) buckets) xs m in
    totalCount h = (totalCount m + Z.of_nat (length xs))%Z /\
    (NoDup (map fst m) -> NoDup (map fst h)) /\
    (Forall (fun e => (1 <= snd e)%Z) m ->
     Forall (fun e => (1 <= snd e)%Z) h) /\
    (forall k, In k (map fst h)
               <-> In k (map fst m) \/ exists x, In x xs /\ bucketOf x = k).
Proof.
  induction xs as [| x rest IH]; intros m; cbv zeta.
  - cbn [fold_left length]. repeat split; try tauto; try lia.
    intros [H | (x & [] & _)]. exact H.
  - cbn [fold_left length].
    destruct (IH (bump (bucketOf x) m)) as (H1 & H2 & H3 & H4).
    cbv zeta in *. repeat split.
    + rewrite H1, bump_totalCount. lia.
    + intros H. apply H2, bump_NoDup, H.
    + intros H. apply H3, bump_positive, H.
    + intros H. apply H4 in H. rewrite bump_In_key in H.
      destruct H as [[E | H] | (y & Hy & E)].
      * right. exists x. split; [left; reflexivity | symmetry; exact E].
      * left. exact H.
      * right. exists y. split; [right; exact Hy | exact E].
    + intros H. apply H4. rewrite bump_In_key.
      destruct H as [H | (y & [E | Hy] & Ek)].
      * left. right. exact H.
      * left. left. subst y. symmetry. exact Ek.
      * right. exists y. split; assumption.
Qed.


Lemma scan_spec (buckets : list (Z * Z)) :
  forall m0 k0 : Z,
    let r := fold_left scanStep buckets (m0, k0) in
    Forall (fun e => (snd e <= fst r)%Z) buckets /\
    ((r = (m0, k0)) \/
     ((m0 < fst r)%Z /\
      exists pre post,
        buckets = pre ++ (snd r, fst r) :: post /\
        Forall (fun e => (snd e < fst r)%Z) pre)).
Proof.
  induction buckets as [| [k1 n1] rest IH]; intros m0 k0; cbv zeta.
  - cbn. split; [constructor | left; reflexivity].
  - cbn [fold_left scanStep].
    destruct (Z.ltb_spec m0 n1) as [Hlt | Hge].
    + destruct (IH n1 k1) as [Hall [Hsame | (Hgt & pre & post & Hb & Hpre)]];
        cbv zeta in *.
      * rewrite Hsame in *. cbn [fst snd] in *.
        split; [constructor; [cbn; lia | exact Hall] |].
        right. split; [exact Hlt |].
        exists [], rest. split; [reflexivity | constructor].
      * split.
        { constructor; [cbn; lia | exact Hall]. }
        right. split; [lia |].
        exists ((k1, n1) :: pre), post. split.
        { rewrite Hb at 1. reflexivity. }
        constructor; [cbn; lia | exact Hpre].
    + destruct (IH m0 k0) as [Hall [Hsame | (Hgt & pre & post & Hb & Hpre)]];
        cbv zeta in *.
      * rewrite Hsame in *. cbn [fst snd] in *.
        split; [constructor; [cbn; lia | exact Hall] | left; reflexivity].
      * split.
        { constructor; [cbn; lia | exact Hall]. }
        right. split; [exact Hgt |].
        exists ((k1, n1) :: pre), post. split.
        { rewrite Hb at 1. reflexivity. }
        constructor; [cbn; lia | exact Hpre].
Qed.

End HistogramVoting.

Section CandidateRange.

Import BeatDetector.

Lemma mostCommon_scan (buckets : list (Z * Z)) :
  mostCommon buckets = fold_left scanStep buckets (0%Z, 428%Z).
Proof. reflexivity. Qed.

Lemma mostCommon_first_max (buckets : list (Z * Z)) :
  Forall (fun e => (1 <= snd e)%Z) buckets -> buckets <> [] ->
  Forall (fun e => (snd e <= fst (mostCommon buckets))%Z) buckets /\
  exists pre post,
    buckets
      = pre ++ (snd (mostCommon buckets), fst (mostCommon buckets)) :: post /\
    Forall (fun e => (snd e < fst (mostCommon buckets))%Z) pre.
Proof.
  intros Hpos Hne. rewrite mostCommon_scan.
  destruct (scan_spec buckets 0 428) as [Hall [Hsame | (_ & Hex)]];
    cbv zeta in *.
  - exfalso. rewrite Hsame in Hall. cbn [fst] in Hall.
    destruct buckets as [| e rest]; [contradiction |].
    inversion Hall; subst. inversion Hpos; subst. lia.
  - split; assumption.
Qed.

(** X22.  The vote picks the first fullest bucket: on a histogram with
    entries (all counts at least 1) [mostCommon] returns an entry of the
    histogram whose count no other entry exceeds, and every entry before
    it has a strictly smaller count. *)
Theorem most_common_is_first_maximum (buckets : list (Z * Z)) :
  Forall (fun e => (1 <= snd e)%Z) buckets -> buckets <> [] ->
  let maxCount := fst (mostCommon buckets) in
  let bestInterval := snd (mostCommon buckets) in
  In (bestInterval, maxCount) buckets /\
  Forall (fun e => (snd e <= maxCount)%Z) buckets /\
  exists pre post,
    buckets = pre ++ (bestInterval, maxCount) :: post /\
    Forall (fun e => (snd e < maxCount)%Z) pre.
Proof.
  intros Hpos Hne. cbv zeta.
  destruct (mostCommon_first_max buckets Hpos Hne)
    as [Hall (pre & post & Hb & Hpre)].
  split; [| split; [exact Hall | exists pre, post; split; assumption]].
  set (entry := (snd (mostCommon buckets), fst (mostCommon buckets))) in *.
  rewrite Hb. apply in_or_app. right. left. reflexivity.
Qed.

Lemma most_common_is_first_maximum_witness :
  In (snd (mostCommon [(400, 2); (410, 3); (420, 3)]%Z),
      fst (mostCommon [(400, 2); (410, 3); (420, 3)]%Z))
     [(400, 2); (410, 3); (420, 3)]%Z.
Proof.
  apply (most_common_is_first_maximum [(400, 2); (410, 3); (420, 3)]%Z).
  - repeat constructor; cbn; lia.
  - discriminate.
Defined.

Lemma intervalsOf_in_range (times : list Q) :
  Forall (fun x => 315 < x /\ x < 500) (intervalsOf times).
Proof.
  induction times as [| a rest IH]; [constructor |].
  destruct rest as [| b rest']; [constructor |].
  change (intervalsOf (a :: b :: rest'))
    with (if JS.gtb (b - a) 315 && JS.ltb (b - a) 500
          then (b - a) :: intervalsOf (b :: rest')
          else intervalsOf (b :: rest')).
  destruct (JS.gtb (b - a) 315) eqn:E1; [| exact IH].
  destruct (JS.ltb (b - a) 500) eqn:E2; [| exact IH].
  cbn [andb]. constructor; [| exact IH].
  apply gtb_gt in E1. apply ltb_lt in E2. split; assumption.
Qed.

Lemma tempo_of_bucket (k : Z) :
  (320 <= k <= 500)%Z ->
  (120 <= JS.round (60000 / inject_Z k) <= 188)%Z.
Proof.
  intros [H1 H2]. rewrite Zle_Qle in H1, H2.
  change (inject_Z 320) with 320 in H1. change (inject_Z 500) with 500 in H2.
  set (B := inject_Z k) in *.
  assert (HB : 0 < B) by lra.
  apply round_between.
  - change (inject_Z 120) with 120. apply Qle_shift_div_l; [exact HB | lra].
  - change (inject_Z 188) with 188. apply Qle_shift_div_r; [exact HB | lra].
Qed.

Lemma candidateBPM_range (times : list Q) (c : Z) :
  candidateBPM times = Some c -> (120 <= c <= 188)%Z.
Proof.
  unfold candidateBPM.
  destruct (length times <? 4)%nat; [discriminate |].
  destruct (Nat.ltb_spec (length (intervalsOf times)) 2) as [| Hlen];
    [discriminate |].
  intros H. injection H as <-.
  destruct (fold_bump_spec (intervalsOf times) []) as (H1 & _ & H3 & H4).
  cbv zeta in *. fold (histogram (intervalsOf times)) in *.
  assert (Hne : histogram (intervalsOf times) <> []).
  { intros E. rewrite E in H1. cbn in H1. lia. }
  destruct (mostCommon_first_max _ (H3 (Forall_nil _)) Hne)
    as [_ (pre & post & Hb & _)].
  set (k := snd (mostCommon (histogram (intervalsOf times)))) in *.
  set (m := fst (mostCommon (histogram (intervalsOf times)))) in *.
  assert (Hin : In k (map fst (histogram (intervalsOf times)))).
  { rewrite Hb, map_app, in_app_iff. right. left. reflexivity. }
  apply H4 in Hin. destruct Hin as [[] | (x & Hx & Ek)].
  pose proof (intervalsOf_in_range times) as Hall.
  rewrite Forall_forall in Hall. destruct (Hall x Hx) as [Hlo Hhi].
  apply tempo_of_bucket. rewrite <- Ek. apply bucketOf_range; assumption.
Qed.

(** X23.  The range test of [estimateBPM] never rejects: whatever the
    onset times are, a candidate that is computed lies between 120 and 188
    (the intervals are filtered to (315, 500) first), so every candidate is
    smoothed into the estimate. *)
Theorem candidate_always_accepted (s : t) :
  (forall c, candidateBPM (onsetTimes s) = Some c -> (120 <= c <= 188)%Z) /\
  estimateBPM s
    = match candidateBPM (onsetTimes s) with
      | None => s
      | Some c => withEstimate (smooth (estimatedBPM s) c) s
      end.
Proof.
  split; [intros c; apply candidateBPM_range |].
  unfold estimateBPM, acceptCandidate.
  destruct (candidateBPM (onsetTimes s)) as [c |] eqn:E; [| reflexivity].
  destruct (candidateBPM_range _ _ E) as [H1 H2].
  destruct (Z.leb_spec 120 c); [| lia].
  destruct (Z.leb_spec c 190); [reflexivity | lia].
Qed.

Lemma candidate_always_accepted_witness :
  (120 <= 150 <= 188)%Z.
Proof.
  apply (proj1 (candidate_always_accepted
                  (recordOnsets (onsetsEvery 0 400 5) (create 44100)))).
  vm_compute. reflexivity.
Defined.

End CandidateRange.

Section EstimateRetained.

Import BeatDetector.

Lemma recordOnsets_onsetTimes (times : list Q) :
  forall s,
    onsetTimes (recordOnsets times s)
      = fold_left (fun xs time => JS.pushCapped maxOnsets time xs)
                  times (onsetTimes s) /\
    bpmLocked (recordOnsets times s) = bpmLocked s /\
    lockedBPM (recordOnsets times s) = lockedBPM s.
Proof.
  induction times as [| time rest IH]; intros s; [cbn; auto |].
  change (recordOnsets (time :: rest) s)
    with (recordOnsets rest (recordOnset time s)).
  destruct (IH (recordOnset time s)) as (H1 & H2 & H3).
  destruct (recordOnset_frame time s) as (G1 & _ & G3 & G4 & _).
  rewrite H1, H2, H3, G1, G3, G4. cbn [fold_left]. auto.
Qed.

Lemma recordOnset_no_candidate (time : Q) (s : t) :
  candidateBPM (JS.pushCapped maxOnsets time (onsetTimes s)) = None ->
  estimatedBPM (recordOnset time s) = estimatedBPM s.
Proof.
  intros H. unfold recordOnset, estimateBPM.
  cbn [bpmLocked onsetTimes].
  destruct (bpmLocked s); cbn [negb]; [reflexivity |].
  rewrite H. reflexivity.
Qed.

Lemma pushCapped_short (cap : nat) (x : Q) (xs : list Q) :
  (length (JS.pushCapped cap x xs) <= S (length xs))%nat.
Proof.
  unfold JS.pushCapped.
  assert (Hl : length (xs ++ [x]) = S (length xs))
    by (rewrite length_app; cbn; lia).
  destruct (cap <? _)%nat; [| lia].
  destruct (xs ++ [x]); cbn [tl length] in *; lia.
Qed.

Lemma few_onsets_keep_estimate (times : list Q) :
  forall s,
    (length (onsetTimes s) + length times < 4)%nat ->
    estimatedBPM (recordOnsets times s) = estimatedBPM s.
Proof.
  induction times as [| time rest IH]; intros s Hlen; [reflexivity |].
  change (recordOnsets (time :: rest) s)
    with (recordOnsets rest (recordOnset time s)).
  destruct (recordOnset_frame time s) as (G1 & _).
  pose proof (pushCapped_short maxOnsets time (onsetTimes s)) as Hs.
  cbn [length] in Hlen.
  rewrite IH by (rewrite G1; lia).
  apply recordOnset_no_candidate, candidateBPM_short. lia.
Qed.

(** X24.  A restart needs four onsets: after [reset()] the reported tempo
    is 140 and the detector is unlocked, and recording fewer than 4 onsets,
    whatever their times, leaves it at 140. *)
Theorem reset_needs_four_onsets (s : t) (times : list Q) :
  (length times < 4)%nat ->
  getEstimatedBPM (recordOnsets times (reset s)) = 140%Z /\
  bpmLocked (recordOnsets times (reset s)) = false.
Proof.
  intros Hlen.
  destruct (recordOnsets_onsetTimes times (reset s)) as (_ & Hl & _).
  pose proof (few_onsets_keep_estimate times (reset s)) as He.
  unfold getEstimatedBPM. rewrite Hl, He by (cbn; lia).
  cbn. auto.
Qed.

Lemma reset_needs_four_onsets_witness :
  getEstimatedBPM
    (recordOnsets [0; 400; 800]
       (reset (recordOnsets (onsetsEvery 0 400 8) (create 44100))))
    = 140%Z.
Proof.
  apply (reset_needs_four_onsets
           (recordOnsets (onsetsEvery 0 400 8) (create 44100)) [0; 400; 800]).
  cbn. lia.
Defined.

Lemma pushCapped_spaced (cap : nat) (d time : Q) (window rest : list Q) :
  evenlySpaced d (window ++ time :: rest) ->
  evenlySpaced d (JS.pushCapped cap time window ++ rest).
Proof.
  intros H. unfold JS.pushCapped.
  assert (Happ : (window ++ [time]) ++ rest = window ++ time :: rest)
    by (rewrite <- app_assoc; reflexivity).
  destruct (cap <? _)%nat; [| rewrite Happ; exact H].
  rewrite <- Happ in H.
  destruct window as [| a w]; cbn [app tl] in *;
    apply (evenlySpaced_tl d _ H).
Qed.

Lemma intervalsOf_out_of_range (d : Q) (times : list Q) :
  d <= 315 \/ 500 <= d ->
  evenlySpaced d times -> intervalsOf times = [].
Proof.
  intros Hd. induction times as [| a rest IH]; intros Hev; [reflexivity |].
  destruct rest as [| b rest']; [reflexivity |].
  destruct Hev as [Hgap Hev].
  change (intervalsOf (a :: b :: rest'))
    with (if JS.gtb (b - a) 315 && JS.ltb (b - a) 500
          then (b - a) :: intervalsOf (b :: rest')
          else intervalsOf (b :: rest')).
  assert (G : JS.gtb (b - a) 315 && JS.ltb (b - a) 500 = false).
  { destruct (JS.gtb (b - a) 315) eqn:E1; [| reflexivity].
    destruct (JS.ltb (b - a) 500) eqn:E2; [| reflexivity].
    apply gtb_gt in E1. apply ltb_lt in E2. lra. }
  rewrite G. apply IH. exact Hev.
Qed.

(** X25.  A tempo outside the range is ignored on its own: when the
    onsets already stored and the onsets recorded, taken together in order,
    are all the same interval apart, 315 ms or less or 500 ms or more (190
    BPM and faster, 120 BPM and slower), the estimate does not change,
    however many are recorded.  This is the case of a detector that holds
    no onsets (new, or after [reset()]).  (Stored onsets of another spacing
    keep their vote: they are outside this statement.) *)
Theorem out_of_range_spacing_ignored (d : Q) (times : list Q) :
  d <= 315 \/ 500 <= d ->
  forall s,
    evenlySpaced d (onsetTimes s ++ times) ->
    estimatedBPM (recordOnsets times s) = estimatedBPM s.
Proof.
  intros Hd. induction times as [| time rest IH]; intros s Hev;
    [reflexivity |].
  change (recordOnsets (time :: rest) s)
    with (recordOnsets rest (recordOnset time s)).
  destruct (recordOnset_frame time s) as (G1 & _).
  pose proof (pushCapped_spaced maxOnsets d time (onsetTimes s) rest Hev)
    as Hev'.
  rewrite IH by (rewrite G1; exact Hev').
  apply recordOnset_no_candidate.
  unfold candidateBPM.
  rewrite (intervalsOf_out_of_range d _ Hd
             (evenlySpaced_prefix d _ rest Hev')).
  destruct (length _ <? 4)%nat; reflexivity.
Qed.

Lemma out_of_range_spacing_ignored_witness :
  estimatedBPM (recordOnsets (onsetsEvery 0 600 10) (create 44100)) = 140%Z.
Proof.
  apply (out_of_range_spacing_ignored 600 (onsetsEvery 0 600 10)
           (or_intror (Qle_bool_imp_le 500 600 eq_refl)) (create 44100)).
  apply onsetsEvery_even.
Defined.

(** X26.  Unlocking resumes from the value frozen at the lock: onsets
    recorded while locked are stored but not evaluated, so right after
    [unlockBPM()] the reported tempo is still the estimate of the moment of
    [lockBPM()]. *)
Theorem unlock_resumes_from_locked_value (s : t) (times : list Q) :
  let s' := unlockBPM (recordOnsets times (lockBPM s)) in
  getEstimatedBPM s' = estimatedBPM s /\
  bpmLocked s' = false /\
  onsetTimes s'
    = fold_left (fun xs time => JS.pushCapped maxOnsets time xs)
                times (onsetTimes s).
Proof.
  destruct (recordOnsets_locked times (lockBPM s) eq_refl)
    as (_ & _ & He & Ho).
  cbv zeta in *. cbn [unlockBPM getEstimatedBPM bpmLocked estimatedBPM
                      onsetTimes].
  rewrite He, Ho. cbn. auto.
Qed.

End EstimateRetained.

Section SmoothingSteps.

Import BeatDetector.

(** X27.  A smoothing update never overshoots: the new estimate lies
    between the old estimate and the candidate, is no farther from the
    candidate than the old one, and is strictly closer whenever they
    differ by 2 BPM or more. *)
Theorem smoothing_moves_towards_candidate (e c : Z) :
  (Z.min e c <= smooth e c <= Z.max e c)%Z /\
  (Z.abs (smooth e c - c) <= Z.abs (e - c))%Z /\
  ((2 <= Z.abs (e - c))%Z ->
   (Z.abs (smooth e c - c) < Z.abs (e - c))%Z).
Proof.
  destruct (Z.lt_trichotomy e c) as [Hlt | [Heq | Hgt]].
  - destruct (smooth_below c e Hlt) as [[H1 H2] H3].
    repeat split; lia.
  - subst e. rewrite smooth_fixed. repeat split; lia.
  - destruct (smooth_above c e Hgt) as [[H1 H2] H3].
    repeat split; lia.
Qed.

Lemma pushCapped_skipn (cap : nat) (x : Q) (xs : list Q) :
  (1 <= cap)%nat -> (length xs <= cap)%nat ->
  JS.pushCapped cap x xs
    = skipn (length (xs ++ [x]) - cap) (xs ++ [x]).
Proof.
  intros Hcap Hlen. unfold JS.pushCapped.
  assert (Hl : length (xs ++ [x]) = S (length xs))
    by (rewrite length_app; cbn; lia).
  rewrite Hl.
  destruct (Nat.ltb_spec cap (S (length xs))) as [Hfull | Hroom].
  - replace (S (length xs) - cap)%nat with 1%nat by lia.
    destruct (xs ++ [x]); reflexivity.
  - replace (S (length xs) - cap)%nat with 0%nat by lia. reflexivity.
Qed.

Lemma fold_pushCapped_skipn (cap : nat) (times : list Q) :
  (1 <= cap)%nat ->
  forall window,
    (length window <= cap)%nat ->
    fold_left (fun xs time => JS.pushCapped cap time xs) times window
      = skipn (length (window ++ times) - cap) (window ++ times).
Proof.
  intros Hcap. induction times as [| time rest IH]; intros window Hlen.
  - cbn [fold_left]. rewrite app_nil_r.
    replace (length window - cap)%nat with 0%nat by lia. reflexivity.
  - cbn [fold_left].
    destruct (pushCapped_bounds cap time window Hcap Hlen) as [_ Hb].
    rewrite (IH _ Hb).
    assert (Hl : length (window ++ [time]) = S (length window))
      by (rewrite length_app; cbn; lia).
    unfold JS.pushCapped. rewrite Hl.
    destruct (Nat.ltb_spec cap (S (length window))) as [Hfull | Hroom].
    + destruct window as [| a w]; [cbn in Hfull; lia |].
      cbn [app tl]. rewrite !length_app. cbn [length app].
      rewrite length_app. cbn [length] in *.
      replace (S (length w + S (length rest)) - cap)%nat
        with (S (length w + 1 + length rest - cap))%nat by lia.
      cbn [skipn]. rewrite <- app_assoc. reflexivity.
    + rewrite <- app_assoc. reflexivity.
Qed.

(** X28.  The onset list is the most recent onsets: whether locked or not,
    after recording a run of onsets on a list of at most 32 the detector
    holds the last 32 of all the times, in order (all of them when there
    are fewer). *)
Theorem onset_list_is_most_recent (times : list Q) (s : t) :
  (length (onsetTimes s) <= 32)%nat ->
  let all := onsetTimes s ++ times in
  onsetTimes (recordOnsets times s) = skipn (length all - 32) all.
Proof.
  intros Hlen. cbv zeta.
  destruct (recordOnsets_onsetTimes times s) as (H & _).
  rewrite H. apply fold_pushCapped_skipn; [unfold maxOnsets; lia | exact Hlen].
Qed.

Lemma onset_list_is_most_recent_witness :
  onsetTimes (recordOnsets (onsetsEvery 0 400 40) (create 44100))
    = skipn 8 (onsetsEvery 0 400 40).
Proof.
  apply (onset_list_is_most_recent (onsetsEvery 0 400 40) (create 44100)).
  cbn. lia.
Defined.

End SmoothingSteps.

Lemma smoothing_moves_towards_candidate_witness :
  (Z.abs (BeatDetector.smooth 140 150 - 150) < Z.abs (140 - 150))%Z.
Proof.
  apply (proj2 (proj2 (smoothing_moves_towards_candidate 140 150))).
  vm_compute. discriminate.
Defined.

Lemma detectOnset_records_signalled_onsets_witness :
  BeatDetector.estimatedBPM
    (snd (BeatDetector.detectOnset JS.sqrtMilli 1000 [1; 1] [1]
            (BeatDetector.create 44100)))
    = 140%Z.
Proof.
  apply (proj1 (proj2 (proj2
          (detectOnset_records_signalled_onsets JS.sqrtMilli 1000 [1; 1] [1]
             (BeatDetector.create 44100))))).
  vm_compute. reflexivity.
Defined.

Section Silence.

Import BeatDetector.

Variable sqrt : Q -> Q.
Hypothesis sqrt_zero : forall x, x == 0 -> sqrt x == 0.

Lemma fold_squares_zero (w : Q) (xs : list Q) :
  Forall (fun x => x == 0) xs ->
  forall acc, acc == 0 ->
    fold_left (fun e x => e + x * x * w) xs acc == 0.
Proof.
  induction 1 as [| x rest Hx _ IH]; intros acc Hacc; [exact Hacc |].
  cbn [fold_left]. apply IH. rewrite Hx, Hacc. ring.
Qed.

Lemma fold_sum_zero (xs : list Q) :
  Forall (fun x => x == 0) xs ->
  forall acc, acc == 0 -> fold_left Qplus xs acc == 0.
Proof.
  induction 1 as [| x rest Hx _ IH]; intros acc Hacc; [exact Hacc |].
  cbn [fold_left]. apply IH. rewrite Hx, Hacc. ring.
Qed.

Lemma fold_variance_zero (avg : Q) (xs : list Q) :
  avg == 0 -> Forall (fun x => x == 0) xs ->
  forall acc, acc == 0 ->
    fold_left (fun a b => a + (b - avg) * (b - avg)) xs acc == 0.
Proof.
  intros Havg. induction 1 as [| x rest Hx _ IH]; intros acc Hacc;
    [exact Hacc |].
  cbn [fold_left]. apply IH. rewrite Hx, Hacc, Havg. ring.
Qed.

Lemma pushCapped_Forall (P : Q -> Prop) (cap : nat) (x : Q) (xs : list Q) :
  Forall P xs -> P x -> Forall P (JS.pushCapped cap x xs).
Proof.
  intros Hxs Hx. unfold JS.pushCapped.
  assert (H : Forall P (xs ++ [x]))
    by (apply Forall_app; split; [exact Hxs | constructor; [exact Hx | constructor]]).
  destruct (cap <? _)%nat; [| exact H].
  destruct (xs ++ [x]) as [| a rest]; [constructor |].
  inversion H; assumption.
Qed.

Lemma firstn_Forall (P : Q -> Prop) (n : nat) :
  forall xs, Forall P xs -> Forall P (firstn n xs).
Proof.
  induction n as [| k IH]; intros xs H; [constructor |].
  destruct H as [| x rest Hx Hrest]; [constructor |].
  cbn [firstn]. constructor; [exact Hx | apply IH; exact Hrest].
Qed.

Lemma zero_over (x y : Q) : x == 0 -> x / y == 0.
Proof. intros H. unfold Qdiv. rewrite H. ring. Qed.

(** X29.  Silence never fires: on a detector that has heard only silence
    (a new or reset one included), a frame whose bins are all zero signals
    no onset and leaves the detector in that state, given that the square
    root of zero is zero. *)
Theorem silence_never_fires (now : Q) (frequencyData bassData : list Q)
        (s : t) :
  quiet s -> silent frequencyData -> silent bassData ->
  frequencyData <> [] ->
  fst (detectOnset sqrt now frequencyData bassData s) = false /\
  quiet (snd (detectOnset sqrt now frequencyData bassData s)).
Proof.
  intros [Hl Hh] Hf Hb _.
  unfold detectOnset.
  set (energy0 := sqrt (rawEnergy frequencyData bassData
                        / lengthQ frequencyData)).
  set (energy := lastEnergy s * smoothing s + energy0 * (1 - smoothing s)).
  assert (He0 : energy0 == 0).
  { apply sqrt_zero, zero_over. unfold rawEnergy.
    apply (fold_squares_zero _ _ Hf).
    apply fold_squares_zero; [| reflexivity].
    apply firstn_Forall. exact Hb. }
  assert (He : energy == 0) by (unfold energy; rewrite Hl, He0; ring).
  set (history := JS.pushCapped historySize energy (energyHistory s)).
  assert (Hhist : Forall (fun e => e == 0) history)
    by (apply pushCapped_Forall; assumption).
  destruct (length history <? 10)%nat; cbn [fst snd].
  - split; [reflexivity |]. split; assumption.
  - set (avg := JS.sum history / lengthQ history).
    assert (Havg : avg == 0)
      by (apply zero_over, fold_sum_zero; [exact Hhist | reflexivity]).
    set (variance :=
           fold_left (fun a b => a + (b - avg) * (b - avg)) history 0
           / lengthQ history).
    assert (Hvar : variance == 0)
      by (apply zero_over, fold_variance_zero;
          [exact Havg | exact Hhist | reflexivity]).
    set (thr := avg + sqrt variance * ((15 # 10) - sensitivity s)).
    assert (Hthr : thr == 0)
      by (unfold thr; rewrite Havg, (sqrt_zero _ Hvar); ring).
    assert (G : JS.gtb energy thr = false).
    { destruct (JS.gtb energy thr) eqn:E; [| reflexivity].
      apply gtb_gt in E. rewrite He, Hthr in E. lra. }
    rewrite G. cbn [andb fst snd].
    split; [reflexivity |]. split; assumption.
Qed.

End Silence.

Lemma sqrtMilli_zero (x : Q) : x == 0 -> JS.sqrtMilli x == 0.
Proof.
  intros H. unfold JS.sqrtMilli.
  rewrite (Qfloor_comp (x * 1000000) 0) by (rewrite H; ring).
  reflexivity.
Qed.

Lemma silence_never_fires_witness :
  fst (BeatDetector.detectOnset JS.sqrtMilli 5000 [0; 0; 0] [0]
         (BeatDetector.create 44100)) = false.
Proof.
  apply (silence_never_fires JS.sqrtMilli sqrtMilli_zero 5000 [0; 0; 0] [0]
           (BeatDetector.create 44100)).
  - split; [reflexivity | constructor].
  - repeat constructor.
  - repeat constructor.
  - discriminate.
Defined.

Section BeatCrossings.

Import BeatClock.
Import ClockRun.

Lemma crossings_same_anchor (times : list Q) (c c' : t) :
  startTime c' = startTime c -> bpm c' = bpm c ->
  forall prev, crossings prev times c' = crossings prev times c.
Proof.
  intros Hs Hb. induction times as [| now rest IH]; intros prev;
    [reflexivity |].
  cbn [crossings]. unfold currentBeat. rewrite Hs, Hb, IH. reflexivity.
Qed.

(** X30.  With no tempo change in between, the onsets of a run of updates
    are exactly the beat crossings: on a running clock with a positive
    tempo whose beat count agrees with the beat index of the previous clock
    reading, and for clock readings that never go back, [update()] signals
    an onset at a reading exactly when the beat index has grown since the
    reading before it. *)
Theorem onsets_are_beat_crossings (times : list Q) :
  forall (prev : Q) (c : t),
    isRunning c = true -> 0 < bpm c -> synced prev c ->
    ascending prev times ->
    map isOnset (fst (updates times c)) = crossings prev times c.
Proof.
  induction times as [| now rest IH]; intros prev c Hrun Hb Hs Hasc;
    [reflexivity |].
  destruct Hasc as [Hle Hasc].
  destruct (update_onset_iff_wrapped prev now c Hrun Hb Hle Hs)
    as [Hiff Hs'].
  destruct (update_keeps_tempo now c) as (Kb & Kst & Kr).
  cbn [updates crossings].
  destruct (update now c) as [info c1]. cbn [fst snd] in *.
  assert (Hrun1 : isRunning c1 = true) by (rewrite Kr; exact Hrun).
  assert (Hb1 : 0 < bpm c1) by (rewrite Kb; exact Hb).
  specialize (IH now c1 Hrun1 Hb1 Hs' Hasc).
  destruct (updates rest c1) as [infos c2]. cbn [fst map] in *.
  rewrite IH, (crossings_same_anchor rest c c1 Kst Kb now).
  f_equal.
  destruct (isOnset info);
    destruct (Z.ltb_spec (currentBeat prev c) (currentBeat now c));
    try reflexivity.
  - exfalso. assert (G : (currentBeat prev c < currentBeat now c)%Z)
      by (apply Hiff; reflexivity). lia.
  - destruct Hiff as [_ Hiff]. specialize (Hiff H). discriminate Hiff.
Qed.

Lemma onsets_are_beat_crossings_witness :
  map isOnset (fst (updates [100; 600; 700; 1700] (start 0 (create 120))))
    = [false; true; false; true].
Proof.
  apply (onsets_are_beat_crossings [100; 600; 700; 1700] 0
           (start 0 (create 120))).
  - reflexivity.
  - reflexivity.
  - apply start_synced.
  - cbn. repeat split; intros H; discriminate H.
Defined.

End BeatCrossings.
